(** * Annotation synchronisation of the text checker front end

    A shallow embedding of [frontend/src/App.jsx] (the [App] component:
    check scheduling, ignore set, replacement handler) and of the
    [QuillEditor] component with the imperative [replaceText] handle and
    the error-mark projection effect.

    React state and refs are fields of one record that is threaded through
    the handlers; one [step] is one turn of the event loop (a handler, a
    timer callback or the continuation of an awaited [fetch]) followed by
    the re-render and its effects.

    Left out: the deep analysis request ([handleAnalyzeWithAI]), the JSX
    and the editor effect that loads the initial [value] into an empty
    editor; none of them takes part in the properties below. *)

From Stdlib Require Import Ascii String ZArith.
From stdpp Require Import base decidable numbers option list sets gmap strings pretty.

Set Warnings "-clear-no-such-hyp".

(** ** Strings as JavaScript sees them *)

(** Characters are code units; [ascii] stands for the code units below 256.
    [js_whitespace] is the white space and line terminator set that
    [String.prototype.trim] removes, restricted to that range. *)
Definition js_whitespace (c : ascii) : bool :=
  Ascii.is_space c || bool_decide (c = "160"%char).

Fixpoint trimStart (s : string) : string :=
  match s with
  | EmptyString => EmptyString
  | String c s' => if js_whitespace c then trimStart s' else s
  end.

Definition trim (s : string) : string :=
  String.rev (trimStart (String.rev (trimStart s))).

(** [!text.trim()] *)
Definition blank (s : string) : bool := bool_decide (trim s = EmptyString).

(** [a || b] on strings: the empty string and a missing value are falsy. *)
Definition or_string (a : option string) (b : string) : string :=
  match a with
  | Some s => if bool_decide (s = EmptyString) then b else s
  | None => b
  end.

(** [x || 0] on integers. *)
Definition or_zero (x : Z) : Z := if bool_decide (x = 0%Z) then 0%Z else x.

Definition chars (s : string) : list ascii := list_ascii_of_string s.
Definition str (l : list ascii) : string := string_of_list_ascii l.

(** ** Findings and check results (the wire contract of [/v2/check]) *)

(** A replacement is a string or an object [{ value }]. *)
Inductive Replacement :=
  | RString (s : string)
  | RObject (value : string).

Record Finding := mkFinding {
  match_offset : Z;
  match_length : Z;
  match_message : string;
  match_replacements : list Replacement
}.

Record CheckResult := mkResult {
  matches : option (list Finding);
  corrections_found : Z;
  ai_enabled : bool;
  suggestion : option string
}.

(** [`${match.offset}-${match.length}-${match.message}`] *)
Definition errorId (m : Finding) : string :=
  pretty (match_offset m) +:+ "-" +:+ pretty (match_length m) +:+ "-" +:+ match_message m.

(** [typeof replacement === 'string' ? replacement : replacement.value] *)
Definition replacementText (r : Replacement) : string :=
  match r with
  | RString s => s
  | RObject v => v
  end.

(** [!replacement] for a replacement that exists: only the empty string
    is falsy, an object never is. *)
Definition falsy (r : Replacement) : bool :=
  match r with
  | RString s => bool_decide (s = EmptyString)
  | RObject _ => false
  end.

(** The loop of [checkText] (App.jsx 151-162) that rebuilds the ignore set
    from the new matches. *)
Definition preservedIgnored (previousIgnoredIds : gset string) (newMatches : list Finding)
  : gset string :=
  foldl (λ acc m, if decide (errorId m ∈ previousIgnoredIds) then acc ∪ {[errorId m]} else acc)
        ∅ newMatches.

(** The [errors] prop passed to the editor (App.jsx 216-219). *)
Definition activeErrors (result : option CheckResult) (ignoredErrors : gset string)
  : list Finding :=
  match result with
  | Some r =>
      match matches r with
      | Some ms => filter (λ m, errorId m ∉ ignoredErrors) ms
      | None => []
      end
  | None => []
  end.

(** ** The Quill document *)

(** Modelled from the spec: the Document Adapter of section 4.1, which is
    the Quill library and not part of this repository.  A document is its
    sequence of characters, each carrying the [error] mark or not, and the
    selection; [getText] is the checker-visible text, [formatText] sets or
    clears the mark over [[index, index+length)] and does nothing for a
    range that is out of bounds, [deleteText] removes a span,
    [insertText] inserts text, [setSelection] moves the caret.

    Where the spec is silent the behaviour of Quill is followed.  The
    document always ends with a newline: a deletion that would take the
    last one away leaves a newline at the end, and text inserted at or
    after the end becomes a new last line.  A newline never carries the
    mark.  A deletion is clipped to the document.  Inserted text goes into
    the run of text at the position, so it takes the mark of the
    character it is put in front of, or at the end of a line that of the
    character before it; its carriage returns become newlines.

    Nothing is stated here of a deletion that ends exactly with the final
    newline and starts inside an earlier line.

    Not modelled: the focus of the editor.  [selection] is the range as it
    was last set; Quill clamps a range to the document and
    [getSelection(true)] focuses an editor that has no range. *)
Record Quill := mkQuill {
  contents : list (ascii * bool);
  selection : option (Z * Z)
}.

Definition newline : ascii := "010"%char.

Definition getText (q : Quill) : string := str (contents q).*1.

Definition textLength (s : string) : Z := Z.of_nat (String.length s).

Definition within (index length i : Z) : bool :=
  bool_decide (index ≤ i)%Z && bool_decide (i < index + length)%Z.

(** The document ends with a newline. *)
Definition terminated (cs : list (ascii * bool)) : bool :=
  match last cs with
  | Some ce => bool_decide (ce.1 = newline)
  | None => false
  end.

Definition ensureNewline (cs : list (ascii * bool)) : list (ascii * bool) :=
  if terminated cs then cs else cs ++ [(newline, false)].

Definition formatText (index length : Z) (value : bool) (q : Quill) : Quill :=
  if bool_decide (0 ≤ index)%Z && bool_decide (0 ≤ length)%Z
     && bool_decide (index + length ≤ Z.of_nat (List.length (contents q)))%Z
  then {| contents :=
            imap (λ i ce, if within index length (Z.of_nat i)
                          then (ce.1, if bool_decide (ce.1 = newline) then false else value)
                          else ce)
                 (contents q);
          selection := selection q |}
  else q.

Definition deleteText (index length : Z) (q : Quill) : Quill :=
  if bool_decide (length ≤ 0)%Z then q
  else {| contents := ensureNewline (take (Z.to_nat index) (contents q)
                                     ++ drop (Z.to_nat (index + length)) (contents q));
          selection := selection q |}.

(** The mark of the character at a position, unless it is a newline. *)
Definition markAt (cs : list (ascii * bool)) (i : nat) : option bool :=
  match cs !! i with
  | Some ce => if bool_decide (ce.1 = newline) then None else Some ce.2
  | None => None
  end.

(** The mark that text put at position [i] takes; only the first line of
    the inserted text can join the run of text before it. *)
Definition inheritedMark (firstLine : bool) (cs : list (ascii * bool)) (i : nat) : bool :=
  match markAt cs i with
  | Some b => b
  | None =>
      if firstLine
      then match i with
           | 0 => false
           | S j => default false (markAt cs j)
           end
      else false
  end.

Fixpoint inserted (firstLine : bool) (cs : list (ascii * bool)) (i : nat) (text : list ascii)
  : list (ascii * bool) :=
  match text with
  | [] => []
  | c :: text' =>
      if bool_decide (c = newline)
      then (c, false) :: inserted false cs i text'
      else (c, inheritedMark firstLine cs i) :: inserted firstLine cs i text'
  end.

(** The text of a new last line: one newline at its end is the line's
    own. *)
Definition withoutFinalNewline (text : list ascii) : list ascii :=
  match last text with
  | Some c => if bool_decide (c = newline) then take (List.length text - 1) text else text
  | None => text
  end.

Definition carriageReturn : ascii := "013"%char.

(** Line ends of inserted text are newlines: a carriage return with its
    newline, or on its own, becomes one newline. *)
Fixpoint normaliseLineEnds (text : list ascii) : list ascii :=
  match text with
  | [] => []
  | c :: text' =>
      if bool_decide (c = carriageReturn)
      then match text' with
           | c' :: _ =>
               if bool_decide (c' = newline)
               then normaliseLineEnds text'
               else newline :: normaliseLineEnds text'
           | [] => [newline]
           end
      else c :: normaliseLineEnds text'
  end.

Definition insertText (index : Z) (text : string) (q : Quill) : Quill :=
  let cs := contents q in
  let i := Z.to_nat index in
  let t := normaliseLineEnds (chars text) in
  {| contents :=
       if bool_decide (List.length cs ≤ i)
       then cs ++ ((λ c, (c, false)) <$> withoutFinalNewline t) ++ [(newline, false)]
       else take i cs ++ inserted true cs i t ++ drop i cs;
     selection := selection q |}.

Definition setSelection (range : option (Z * Z)) (q : Quill) : Quill :=
  {| contents := contents q; selection := range |}.

(** [quill.format('error', value)]: formats the current selection. *)
Definition format (value : bool) (q : Quill) : Quill :=
  match selection q with
  | Some (index, length) => formatText index length value q
  | None => q
  end.

Definition plain (s : string) : list (ascii * bool) := (λ c, (c, false)) <$> chars s.

(** A line of text with its newline, and the document of an empty editor. *)
Definition line (s : string) : string := s +:+ String newline EmptyString.
Definition emptyDocument : list (ascii * bool) := [(newline, false)].

(** ** Component state *)

(** [useState] and [useRef] cells of [App].  [htmlContent] holds the
    serialised document, here the marked character sequence itself.
    [debounceTimerRef] is the live debounce timer, with the [text] its
    callback closes over ([checkText] is rebuilt whenever [text] changes);
    [None] when no timer is pending.  The deep analysis cells
    ([aiLoading], [aiAnalysis]) belong to [handleAnalyzeWithAI] and are not
    modelled. *)
Record App := mkApp {
  text : string;
  htmlContent : list (ascii * bool);
  loading : bool;
  error : option string;
  result : option CheckResult;
  aiEnabled : bool;
  ignoredErrors : gset string;
  ignoredErrorsRef : gset string;
  debounceTimerRef : option string
}.

(** Refs of [QuillEditor].  [editorRef] tells whether the imperative handle
    is attached to [App]'s [editorRef]; [forwarded] counts the text-change
    notifications that the handler passed on to [onChange]. *)
Record Editor := mkEditor {
  editorRef : bool;
  quillInstanceRef : option Quill;
  isUpdatingRef : bool;
  forwarded : nat
}.

(** The checker as the front end sees it: the bodies of every
    [POST /v2/check] in the order they were sent (a request is named by
    its position) and the requests whose [fetch] is still awaited. *)
Record Net := mkNet {
  posted : list string;
  awaiting : gset nat
}.

Record World := mkWorld {
  app : App;
  editor : Editor;
  net : Net
}.

Definition setText (v : string) (a : App) : App :=
  mkApp v (htmlContent a) (loading a) (error a) (result a) (aiEnabled a)
        (ignoredErrors a) (ignoredErrorsRef a) (debounceTimerRef a).
Definition setHtmlContent (v : list (ascii * bool)) (a : App) : App :=
  mkApp (text a) v (loading a) (error a) (result a) (aiEnabled a)
        (ignoredErrors a) (ignoredErrorsRef a) (debounceTimerRef a).
Definition setLoading (v : bool) (a : App) : App :=
  mkApp (text a) (htmlContent a) v (error a) (result a) (aiEnabled a)
        (ignoredErrors a) (ignoredErrorsRef a) (debounceTimerRef a).
Definition setError (v : option string) (a : App) : App :=
  mkApp (text a) (htmlContent a) (loading a) v (result a) (aiEnabled a)
        (ignoredErrors a) (ignoredErrorsRef a) (debounceTimerRef a).
Definition setResult (v : option CheckResult) (a : App) : App :=
  mkApp (text a) (htmlContent a) (loading a) (error a) v (aiEnabled a)
        (ignoredErrors a) (ignoredErrorsRef a) (debounceTimerRef a).
Definition setAiEnabled (v : bool) (a : App) : App :=
  mkApp (text a) (htmlContent a) (loading a) (error a) (result a) v
        (ignoredErrors a) (ignoredErrorsRef a) (debounceTimerRef a).
Definition setIgnoredErrors (v : gset string) (a : App) : App :=
  mkApp (text a) (htmlContent a) (loading a) (error a) (result a) (aiEnabled a)
        v (ignoredErrorsRef a) (debounceTimerRef a).
Definition setIgnoredErrorsRef (v : gset string) (a : App) : App :=
  mkApp (text a) (htmlContent a) (loading a) (error a) (result a) (aiEnabled a)
        (ignoredErrors a) v (debounceTimerRef a).
Definition setDebounceTimer (v : option string) (a : App) : App :=
  mkApp (text a) (htmlContent a) (loading a) (error a) (result a) (aiEnabled a)
        (ignoredErrors a) (ignoredErrorsRef a) v.

Definition setQuill (q : Quill) (e : Editor) : Editor :=
  mkEditor (editorRef e) (Some q) (isUpdatingRef e) (forwarded e).
Definition setIsUpdating (v : bool) (e : Editor) : Editor :=
  mkEditor (editorRef e) (quillInstanceRef e) v (forwarded e).
Definition countForwarded (e : Editor) : Editor :=
  mkEditor (editorRef e) (quillInstanceRef e) (isUpdatingRef e) (S (forwarded e)).

Definition onApp (f : App → App) (w : World) : World := mkWorld (f (app w)) (editor w) (net w).
Definition onEditor (f : Editor → Editor) (w : World) : World :=
  mkWorld (app w) (f (editor w)) (net w).
Definition onNet (f : Net → Net) (w : World) : World := mkWorld (app w) (editor w) (f (net w)).

(** ** [App]: the editor's [onChange] (App.jsx 28-31) *)
Definition handleEditorChange (html : list (ascii * bool)) (plainText : string) (a : App) : App :=
  setText plainText (setHtmlContent html a).

(** ** [QuillEditor] *)

(** The [text-change] listener (lines 91-100): nothing is forwarded while
    [isUpdatingRef] is set. *)
Definition text_change_handler (w : World) : World :=
  if isUpdatingRef (editor w) then w
  else match quillInstanceRef (editor w) with
       | Some q =>
           onApp (handleEditorChange (contents q) (getText q)) (onEditor countForwarded w)
       | None => w
       end.

(** A call of the Quill API that edits or formats the document: Quill
    emits [text-change] synchronously when the contents changed. *)
Definition api (f : Quill → Quill) (w : World) : World :=
  match quillInstanceRef (editor w) with
  | Some q =>
      let w' := onEditor (setQuill (f q)) w in
      if decide (contents (f q) = contents q) then w' else text_change_handler w'
  | None => w
  end.

(** A call that only moves the selection emits no [text-change]. *)
Definition select (range : option (Z * Z)) (w : World) : World :=
  match quillInstanceRef (editor w) with
  | Some q => onEditor (setQuill (setSelection range q)) w
  | None => w
  end.

(** The imperative handle [replaceText] (lines 38-64). *)
Definition replaceText (offset length : Z) (replacement : string) (w : World) : World :=
  match quillInstanceRef (editor w) with
  | None => w
  | Some _ =>
      let w := onEditor (setIsUpdating true) w in
      let w := api (formatText offset length false) w in
      let w := api (deleteText offset length) w in
      let w := api (insertText offset replacement) w in
      let w := select (Some ((offset + textLength replacement)%Z, 0%Z)) w in
      let w := match quillInstanceRef (editor w) with
               | Some quill => onApp (handleEditorChange (contents quill) (getText quill)) w
               | None => w
               end in
      onEditor (setIsUpdating false) w
  end.

(** The guard of the marking loop (line 162). *)
Definition inBounds (textLen : Z) (m : Finding) : bool :=
  let offset := or_zero (match_offset m) in
  let length := or_zero (match_length m) in
  bool_decide (0 ≤ offset)%Z && bool_decide (offset + length ≤ textLen)%Z
  && bool_decide (0 < length)%Z.

(** The body of [errors.forEach] (lines 158-173). *)
Definition markError (textLen : Z) (w : World) (m : Finding) : World :=
  if inBounds textLen m
  then api (format true)
           (select (Some (or_zero (match_offset m), or_zero (match_length m))) w)
  else w.

(** The callback of the projection effect (lines 132-183).  The range
    read at line 156 is the one the editor holds; in an editor that holds
    none [getSelection(true)] focuses it and yields the caret at 0, which
    is outside the model, so what is stated of the selection is stated for
    an editor that holds a range. *)
Definition projection (errors : list Finding) (w : World) : World :=
  match quillInstanceRef (editor w) with
  | None => w
  | Some quill =>
      let len := textLength (getText quill) in
      match errors with
      | [] =>
          if bool_decide (0 < len)%Z
          then onEditor (setIsUpdating false)
                 (api (formatText 0 len false) (onEditor (setIsUpdating true) w))
          else w
      | _ =>
          let w := onEditor (setIsUpdating true) w in
          let w := if bool_decide (0 < len)%Z then api (formatText 0 len false) w else w in
          let range := from_option selection None (quillInstanceRef (editor w)) in
          let w := foldl (markError len) w errors in
          let w := select range w in
          onEditor (setIsUpdating false) w
      end
  end.

(** ** [App]: handlers *)

(** [handleIgnoreError] (App.jsx 76-88).  Reading [match.offset] of a
    missing entry throws before any state is set. *)
Definition handleIgnoreError (matchIndex : nat) (w : World) : World :=
  match result (app w) with
  | None => w
  | Some r =>
      match matches r with
      | None => w
      | Some ms =>
          match ms !! matchIndex with
          | None => w
          | Some m => onApp (λ a, setIgnoredErrors (ignoredErrors a ∪ {[errorId m]}) a) w
          end
      end
  end.

(** [handleReplaceText] (App.jsx 90-117).  The indices are array positions
    handed out by the rendering [map] calls. *)
Definition handleReplaceText (matchIndex replacementIndex : nat) (w : World) : World :=
  match result (app w) with
  | None => w
  | Some r =>
      match matches r with
      | None => w
      | Some ms =>
          if bool_decide (length ms ≤ matchIndex) then w
          else match ms !! matchIndex with
               | None => w
               | Some m =>
                   match match_replacements m !! replacementIndex with
                   | None => w
                   | Some replacement =>
                       if falsy replacement || negb (editorRef (editor w)) then w
                       else
                         let w := replaceText (match_offset m) (match_length m)
                                              (replacementText replacement) w in
                         onApp (λ a, setIgnoredErrors (ignoredErrors a ∖ {[errorId m]}) a) w
                   end
               end
      end
  end.

(** What the awaited [fetch] of [checkText] comes back with. *)
Inductive Outcome :=
  | Rejected (message : string)       (* [fetch] or the body parser throws *)
  | HttpError (detail : option string) (* [!response.ok], body [{ detail }] *)
  | HttpOk (data : CheckResult).

(** [checkText] up to the [await] (App.jsx 119-139), for the [text] the
    callback closes over. *)
Definition checkText (closureText : string) (w : World) : World :=
  if blank closureText
  then onApp (λ a, setIgnoredErrors ∅
                     (setResult None
                        (setError (Some "Por favor, digite um texto para verificar.") a))) w
  else
    let w := onApp (λ a, setError None (setLoading true a)) w in
    onNet (λ n, mkNet (posted n ++ [closureText])
                      (awaiting n ∪ {[length (posted n)]})) w.

(** The message caught by [checkText] (lines 141-144, 169-170). *)
Definition failureMessage (o : Outcome) : option string :=
  match o with
  | Rejected message => Some (or_string (Some message) "Erro ao conectar a api")
  | HttpError detail =>
      Some (or_string (Some (or_string detail "Erro ao verificar o texto."))
                      "Erro ao conectar a api")
  | HttpOk _ => None
  end.

(** [checkText] after the [await] (App.jsx 141-175). *)
Definition checkText_resume (o : Outcome) (a : App) : App :=
  match o with
  | HttpOk data =>
      let previousIgnoredIds := ignoredErrorsRef a in
      let newMatches := default [] (matches data) in
      let preserved := preservedIgnored previousIgnoredIds newMatches in
      setLoading false
        (setIgnoredErrors preserved
           (setAiEnabled (ai_enabled data) (setResult (Some data) a)))
  | _ => setLoading false (setError (failureMessage o) a)
  end.

(** ** Rendering and effects *)

(** The debounce effect (App.jsx 179-204), run when [text] changed: the
    clean-up of the previous run and the first lines clear the timer. *)
Definition debounceEffect (a : App) : App :=
  let a := setDebounceTimer None a in
  if blank (text a)
  then setIgnoredErrors ∅ (setError None (setResult None a))
  else setDebounceTimer (Some (text a)) a.

(** The effect that mirrors [ignoredErrors] into its ref (App.jsx 24-26). *)
Definition syncIgnoredRef (a : App) : App := setIgnoredErrorsRef (ignoredErrors a) a.

(** The re-render after a turn of the event loop whose state was
    [prevText] before: [App]'s effects run in declaration order, and the
    state the debounce effect sets is rendered and mirrored once more.
    [QuillEditor]'s effect on [value] (lines 109-123) is not part of it:
    it acts only while the text of the document is blank and no finding is
    displayed, and then reloads the document from [htmlContent] without a
    notification; what is stated of the document after a turn is stated
    for a document that is not blank. *)
Definition commit (prevText : string) (a : App) : App :=
  let a := syncIgnoredRef a in
  if decide (text a = prevText) then a else syncIgnoredRef (debounceEffect a).

(** ** The event loop *)

Inductive Event :=
  | UserEdit (newContents : list (ascii * bool)) (* the user edits the document *)
  | DebounceTimer                                (* the 1000 ms timer fires *)
  | Response (request : nat) (o : Outcome)       (* an awaited [fetch] settles *)
  | ProjectionTimer                              (* the 200 ms timer fires *)
  | ClickIgnore (matchIndex : nat)
  | ClickReplacement (matchIndex replacementIndex : nat).

Definition handle (e : Event) (w : World) : World :=
  match e with
  | UserEdit newContents =>
      api (λ q, mkQuill newContents (selection q)) w
  | DebounceTimer =>
      match debounceTimerRef (app w) with
      | Some closureText => checkText closureText (onApp (setDebounceTimer None) w)
      | None => w
      end
  | Response request o =>
      if decide (request ∈ awaiting (net w))
      then onApp (checkText_resume o)
             (onNet (λ n, mkNet (posted n) (awaiting n ∖ {[request]})) w)
      else w
  | ProjectionTimer =>
      projection (activeErrors (result (app w)) (ignoredErrors (app w))) w
  | ClickIgnore matchIndex => handleIgnoreError matchIndex w
  | ClickReplacement matchIndex replacementIndex =>
      handleReplaceText matchIndex replacementIndex w
  end.

Definition step (w : World) (e : Event) : World :=
  onApp (commit (text (app w))) (handle e w).

Definition run (w : World) (trace : list Event) : World := foldl step w trace.

(** The state after mounting on a document [doc]: every cell has its
    initial value and the effects have run once on the empty [text]. *)
Definition init (doc : list (ascii * bool)) : World :=
  mkWorld (mkApp EmptyString [] false None None false ∅ ∅ None)
          (mkEditor true (Some (mkQuill doc None)) false 0)
          (mkNet [] ∅).

(** ** The editor callbacks as functions of the document *)

(** The Quill calls of [replaceText] in sequence. *)
Definition replaceQuill (offset length : Z) (replacement : string) (q : Quill) : Quill :=
  setSelection (Some ((offset + textLength replacement)%Z, 0%Z))
    (insertText offset replacement
       (deleteText offset length (formatText offset length false q))).

(** The Quill calls of one round of the marking loop. *)
Definition markQuill (textLen : Z) (q : Quill) (m : Finding) : Quill :=
  if inBounds textLen m
  then format true (setSelection (Some (or_zero (match_offset m), or_zero (match_length m))) q)
  else q.

(** The Quill calls of the projection callback. *)
Definition projectQuill (errors : list Finding) (q : Quill) : Quill :=
  let len := textLength (getText q) in
  let q1 := if bool_decide (0 < len)%Z then formatText 0 len false q else q in
  setSelection (selection q1) (foldl (markQuill len) q1 errors).

(** The document without any mark. *)
Definition cleared (q : Quill) : Quill :=
  mkQuill ((λ c, (c, false)) <$> (contents q).*1) (selection q).

(** The spec's [D[0:offset] + text + D[offset+length:]], with slices that
    stop at the end of [D]. *)
Definition spliced (D : string) (offset length : Z) (t : string) : string :=
  str (take (Z.to_nat offset) (chars D)) +:+ t
  +:+ str (drop (Z.to_nat (offset + length)) (chars D)).

(** The replacement entry a click on suggestion [replacementIndex] of
    match [matchIndex] selects, if the result, the match and the entry
    exist. *)
Definition replacementAt (w : World) (matchIndex replacementIndex : nat) : option Replacement :=
  r ← result (app w);
  ms ← matches r;
  m ← ms !! matchIndex;
  match_replacements m !! replacementIndex.

(** ** Sample sessions *)

Definition spelling : Finding := mkFinding 0 3 "spelling" [RString "The"].

(** The user types, the debounce timer fires and the check comes back
    with one finding. *)
Definition checkedSession : World :=
  run (init emptyDocument)
      [UserEdit (plain (line "Teh cat")); DebounceTimer;
       Response 0 (HttpOk (mkResult (Some [spelling]) 1 false None))].

Definition preposition : Finding := mkFinding 8 6 "preposition" [RString "in the"].

(** The check reports a finding on [on mat]; the user then deletes the
    last word, so the finding on display reaches beyond the document. *)
Definition driftedSession : World :=
  run (init emptyDocument)
      [UserEdit (plain (line "Teh cat on mat")); DebounceTimer;
       Response 0 (HttpOk (mkResult (Some [preposition]) 1 false None));
       UserEdit (plain (line "Teh cat on"))].

Definition resultA : CheckResult := mkResult (Some [spelling]) 1 false None.

Definition lastWord : Finding := mkFinding 4 4 "word" [RString "dog"; RString EmptyString].

(** The check reports a finding whose span takes in the final newline. *)
Definition lastWordSession : World :=
  run (init emptyDocument)
      [UserEdit (plain (line "Teh cat")); DebounceTimer;
       Response 0 (HttpOk (mkResult (Some [lastWord]) 1 false None))].

Definition lineBreak : Finding :=
  mkFinding 3 1 "break" [RString (String carriageReturn EmptyString)].

(** The check suggests a carriage return in place of the first space. *)
Definition lineBreakSession : World :=
  run (init emptyDocument)
      [UserEdit (plain (line "Teh cat")); DebounceTimer;
       Response 0 (HttpOk (mkResult (Some [lineBreak]) 1 false None))].

(** Request 0 is still in flight when a further edit makes the timer fire
    again and request 1 is sent. *)
Definition overlappingSession : World :=
  run (init emptyDocument)
      [UserEdit (plain (line "Teh cat")); DebounceTimer;
       UserEdit (plain (line "Teh cat sat")); DebounceTimer].

(** A result is on display, a finding is ignored and a further edit has
    armed the debounce timer. *)
Definition pendingSession : World :=
  run checkedSession [ClickIgnore 0; UserEdit (plain (line "Teh cat sat"))].

(** A check is in flight and a result is on display. *)
Definition recheckingSession : World :=
  run checkedSession [ClickIgnore 0; UserEdit (plain (line "Teh cat sat")); DebounceTimer].

(** [true] for the outcomes that make [checkText] reach its [catch]. *)
Definition failed (o : Outcome) : bool :=
  match o with
  | HttpOk _ => false
  | _ => true
  end.

(** The spec's FindingIdentity: the triple that the template string of
    [errorId] renders. *)
Definition identityOf (m : Finding) : Z * Z * string :=
  (match_offset m, match_length m, match_message m).

Definition digit (c : ascii) : bool := bool_decide (is_Some (Ascii.is_nat c)).

Fixpoint numeral (s : string) : bool :=
  match s with
  | EmptyString => true
  | String c s' => digit c && numeral s'
  end.

(** ** The result panel *)

(** The entries the panel lists (App.jsx 302-308): every match with its
    position in [result.matches], the ignored ones filtered out.  The
    position is what the buttons of the entry pass to [handleIgnoreError]
    and [handleReplaceText]. *)
Definition displayed (result : option CheckResult) (ignoredErrors : gset string)
  : list (nat * Finding) :=
  match result with
  | Some r =>
      match matches r with
      | Some ms => filter (λ im, errorId im.2 ∉ ignoredErrors) (imap (λ i m, (i, m)) ms)
      | None => []
      end
  | None => []
  end.

(** ** The deep analysis ([handleAnalyzeWithAI], App.jsx 33-74) *)

(** The [ai_analysis] object of the response, as the page reads it. *)
Record AiReport := mkReport {
  nivel_estimado : option string;
  coesao : option string;
  coerencia : option string;
  pontos_fortes : list string;
  pontos_melhoria : list string;
  sugestoes_gerais : list string
}.

(** The body of a successful [/v2/analyze] response. *)
Record AnalyzeData := mkAnalyze {
  analyze_matches : option (list Finding);
  analyze_corrections_found : Z;
  ai_analysis : option AiReport
}.

Inductive AnalyzeOutcome :=
  | AnalyzeRejected (message : string)
  | AnalyzeHttpError (detail : option string)
  | AnalyzeOk (data : AnalyzeData).

(** The cells of [App] that belong to the analysis, and its requests: the
    body of every [POST /v2/analyze] together with the [result] that the
    handler closed over when it was called, and the requests still
    awaited. *)
Record Assistant := mkAssistant {
  aiLoading : bool;
  aiAnalysis : option AnalyzeData;
  analyses : list (string * option CheckResult);
  analysesAwaiting : gset nat
}.

Record Session := mkSession {
  world : World;
  assistant : Assistant
}.

Definition setAiLoading (v : bool) (x : Assistant) : Assistant :=
  mkAssistant v (aiAnalysis x) (analyses x) (analysesAwaiting x).
Definition setAiAnalysis (v : option AnalyzeData) (x : Assistant) : Assistant :=
  mkAssistant (aiLoading x) v (analyses x) (analysesAwaiting x).

(** [handleAnalyzeWithAI] up to the [await] (lines 33-50). *)
Definition handleAnalyzeWithAI (s : Session) : Session :=
  let a := app (world s) in
  if blank (text a)
  then mkSession (onApp (setError (Some "Por favor, digite um texto para analisar."))
                        (world s))
                 (assistant s)
  else mkSession (onApp (setError None) (world s))
                 (mkAssistant true (aiAnalysis (assistant s))
                              (analyses (assistant s) ++ [(text a, result a)])
                              (analysesAwaiting (assistant s)
                               ∪ {[length (analyses (assistant s))]})).

(** [{ ...result, matches: data.matches, corrections_found: ... }] for the
    [result] of the closure; spreading [null] leaves the other fields
    undefined. *)
Definition spreadResult (closureResult : option CheckResult) (ms : list Finding)
    (found : Z) : CheckResult :=
  match closureResult with
  | Some r => mkResult (Some ms) found (ai_enabled r) (suggestion r)
  | None => mkResult (Some ms) found false None
  end.

(** The message caught by [handleAnalyzeWithAI] (lines 52-55, 68-69). *)
Definition analyzeFailureMessage (o : AnalyzeOutcome) : option string :=
  match o with
  | AnalyzeRejected message => Some (or_string (Some message) "Erro ao conectar a api")
  | AnalyzeHttpError detail =>
      Some (or_string (Some (or_string detail "Erro ao analisar com IA."))
                      "Erro ao conectar a api")
  | AnalyzeOk _ => None
  end.

(** [handleAnalyzeWithAI] after the [await] (lines 52-73), for the
    [result] the handler closed over. *)
Definition handleAnalyzeWithAI_resume (closureResult : option CheckResult)
    (o : AnalyzeOutcome) (s : Session) : Session :=
  match o with
  | AnalyzeOk data =>
      let w := match analyze_matches data with
               | Some ms =>
                   onApp (setResult
                            (Some (spreadResult closureResult ms
                                                (analyze_corrections_found data))))
                         (world s)
               | None => world s
               end in
      mkSession w (setAiLoading false (setAiAnalysis (Some data) (assistant s)))
  | _ =>
      mkSession (onApp (setError (analyzeFailureMessage o)) (world s))
                (setAiLoading false (assistant s))
  end.

Inductive SessionEvent :=
  | Turn (e : Event)                                   (* a turn of [step] *)
  | ClickAnalyze                                       (* the analysis button *)
  | AnalyzeResponse (request : nat) (o : AnalyzeOutcome).

(** One turn of the whole page.  An accepted check response also resets
    [aiAnalysis] (App.jsx 167). *)
Definition sessionHandle (e : SessionEvent) (s : Session) : Session :=
  match e with
  | Turn e =>
      let x := match e with
               | Response request (HttpOk _) =>
                   if decide (request ∈ awaiting (net (world s)))
                   then setAiAnalysis None (assistant s)
                   else assistant s
               | _ => assistant s
               end in
      mkSession (handle e (world s)) x
  | ClickAnalyze => handleAnalyzeWithAI s
  | AnalyzeResponse request o =>
      if decide (request ∈ analysesAwaiting (assistant s))
      then match analyses (assistant s) !! request with
           | Some (_, closureResult) =>
               handleAnalyzeWithAI_resume closureResult o
                 (mkSession (world s)
                            (mkAssistant (aiLoading (assistant s)) (aiAnalysis (assistant s))
                                         (analyses (assistant s))
                                         (analysesAwaiting (assistant s) ∖ {[request]})))
           | None => s
           end
      else s
  end.

Definition sessionStep (s : Session) (e : SessionEvent) : Session :=
  let s' := sessionHandle e s in
  mkSession (onApp (commit (text (app (world s)))) (world s')) (assistant s').

Definition sessionRun (s : Session) (trace : list SessionEvent) : Session :=
  foldl sessionStep s trace.

Definition sessionInit (doc : list (ascii * bool)) : Session :=
  mkSession (init doc) (mkAssistant false None [] ∅).

(** A check result with the analysis enabled arrives, the user asks for
    the analysis and keeps typing; the next check comes back while the
    analysis is still awaited. *)
Definition analysedSession : Session :=
  sessionRun (sessionInit emptyDocument)
    [Turn (UserEdit (plain (line "Teh cat")));
     Turn DebounceTimer;
     Turn (Response 0 (HttpOk (mkResult (Some [spelling]) 1 true (Some "use a dictionary"))));
     Turn (ClickIgnore 0);
     ClickAnalyze;
     Turn (UserEdit (plain (line "Teh cat sat")));
     Turn DebounceTimer;
     Turn (Response 1 (HttpOk (mkResult (Some []) 0 true None)))].

(** ** The state between two turns *)

(** What holds of the page whenever a turn has ended: the gate is free,
    the ref mirrors the ignore set, a pending debounce timer closes over
    the current [text], which is not blank, and no request was sent for a
    blank text. *)
Definition settled (w : World) : Prop :=
  isUpdatingRef (editor w) = false
  ∧ ignoredErrorsRef (app w) = ignoredErrors (app w)
  ∧ (∀ t, debounceTimerRef (app w) = Some t → t = text (app w) ∧ blank t = false)
  ∧ Forall (λ t, blank t = false) (posted (net w)).

(** The part of the page that belongs to the checker and the editor is
    the same in [w'] as in [w]. *)
Definition checkerUntouched (w w' : World) : Prop :=
  editor w' = editor w ∧ net w' = net w
  ∧ text (app w') = text (app w) ∧ htmlContent (app w') = htmlContent (app w)
  ∧ debounceTimerRef (app w') = debounceTimerRef (app w)
  ∧ ignoredErrors (app w') = ignoredErrors (app w)
  ∧ loading (app w') = loading (app w).

(** Every ignored id is the id of a match of the stored result. *)
Definition ignoredAreReported (a : App) : Prop :=
  ∀ id, id ∈ ignoredErrors a →
        ∃ m, m ∈ default [] (result a ≫= matches) ∧ errorId m = id.

(** * Properties *)

(** ** Sanity checks on concrete inputs *)

Example trim_ex : trim "  Teh cat
" = "Teh cat".
Proof. reflexivity. Qed.

Example blank_newline : blank "
" = true.
Proof. reflexivity. Qed.

Example errorId_ex :
  errorId (mkFinding 4 3 "agreement" []) = "4-3-agreement".
Proof. reflexivity. Qed.

Example delete_insert_ex :
  getText (insertText 0 "The" (deleteText 0 3 (mkQuill (plain (line "Teh cat")) None)))
  = line "The cat".
Proof. reflexivity. Qed.

(** The last newline stays, and text put after it becomes a new line. *)
Example delete_all_ex :
  getText (deleteText 0 8 (mkQuill (plain (line "Teh cat")) None)) = line "".
Proof. reflexivity. Qed.

Example insert_at_end_ex :
  getText (insertText 8 "sat" (mkQuill (plain (line "Teh cat")) None))
  = line "Teh cat" +:+ line "sat".
Proof. reflexivity. Qed.

(** The scenarios of the spec: a replacement on [Teh cat], and a finding
    that stays ignored when the next check reports it again. *)
Example teh_cat_replaced :
  quillInstanceRef (editor (run checkedSession [ProjectionTimer; ClickReplacement 0 0]))
  = Some (mkQuill (plain (line "The cat")) (Some (3, 0)%Z)).
Proof. by vm_compute. Qed.

Example ignored_finding_stays_filtered :
  let agreement := mkFinding 4 3 "agreement" [] in
  let reported := HttpOk (mkResult (Some [agreement]) 1 false None) in
  let w := run (init emptyDocument)
               [UserEdit (plain (line "The cat are")); DebounceTimer; Response 0 reported;
                ClickIgnore 0;
                UserEdit (plain (line "The cat are here")); DebounceTimer;
                Response 1 reported]
  in ignoredErrors (app w) = {[ "4-3-agreement" ]}
     ∧ activeErrors (result (app w)) (ignoredErrors (app w)) = [].
Proof. by vm_compute. Qed.

(** ** The identity string determines the identity triple *)

Lemma app_cons c (s t : string) : String c s +:+ t = String c (s +:+ t).
Proof. reflexivity. Qed.

Lemma app_empty_l (t : string) : EmptyString +:+ t = t.
Proof. reflexivity. Qed.

Lemma app_empty_r (s : string) : s +:+ EmptyString = s.
Proof. induction s as [|a s IH]; [done|]. by rewrite app_cons, IH. Qed.

Section Identity.

Local Lemma app_snoc (s : string) c t : (s +:+ String c EmptyString) +:+ t = s +:+ String c t.
Proof. induction s as [|a s IH]; [done|]. by rewrite !app_cons, IH. Qed.

Local Lemma numeral_snoc s c :
  numeral s = true → digit c = true → numeral (s +:+ String c EmptyString) = true.
Proof.
  induction s as [|a s IH]; intros Hs Hc.
  - rewrite app_empty_l. simpl. by rewrite Hc.
  - rewrite app_cons. simpl in *. apply andb_true_iff in Hs as [-> Hs]. by apply IH.
Qed.

Lemma pretty_N_char_digit x : digit (pretty_N_char x) = true.
Proof. unfold pretty_N_char. by repeat case_match. Qed.

Lemma pretty_N_go_numeral x s :
  ∃ d, pretty_N_go x s = d +:+ s ∧ numeral d = true ∧ ((0 < x)%N → d ≠ EmptyString).
Proof.
  revert s. induction (N.lt_wf_0 x) as [x _ IH]; intros s.
  assert (x = 0 ∨ 0 < x)%N as [->|Hx] by lia.
  - exists EmptyString. rewrite pretty_N_go_0. split_and!; [done..|lia].
  - rewrite pretty_N_go_step by done.
    destruct (IH (x `div` 10)%N (N.div_lt x 10 Hx eq_refl)
                 (String (pretty_N_char (x `mod` 10)) s)) as (d & -> & Hd & _).
    exists (d +:+ String (pretty_N_char (x `mod` 10)) EmptyString).
    split_and!.
    + by rewrite app_snoc.
    + apply numeral_snoc; [done|apply pretty_N_char_digit].
    + intros _. by destruct d.
Qed.

(** A rendered integer is an optional minus sign and at least one digit. *)
Lemma pretty_Z_shape (z : Z) :
  ∃ (neg : bool) d, pretty z = (if neg then "-" else EmptyString) +:+ d
                    ∧ numeral d = true ∧ d ≠ EmptyString.
Proof.
  destruct z as [|p|p].
  - by exists false, "0".
  - destruct (pretty_N_go_numeral (N.pos p) EmptyString) as (d & Hd & ? & Hne).
    exists false, d. split_and!; [|done|apply Hne; lia].
    unfold pretty, pretty_Z, pretty, pretty_positive, pretty, pretty_N.
    rewrite decide_False by done. by rewrite Hd, app_empty_r, app_empty_l.
  - destruct (pretty_N_go_numeral (N.pos p) EmptyString) as (d & Hd & ? & Hne).
    exists true, d. split_and!; [|done|apply Hne; lia].
    unfold pretty, pretty_Z, pretty, pretty_positive, pretty, pretty_N.
    rewrite decide_False by done. by rewrite Hd, app_empty_r.
Qed.

(** Digits followed by a dash can be split in one way only. *)
Lemma numeral_dash_split d1 d2 r1 r2 :
  numeral d1 = true → numeral d2 = true →
  d1 +:+ String "-" r1 = d2 +:+ String "-" r2 → d1 = d2 ∧ r1 = r2.
Proof.
  revert d2. induction d1 as [|a d1 IH]; intros [|b d2] H1 H2 Heq;
    rewrite ?app_cons, ?app_empty_l in Heq; simpl in *.
  - by simplify_eq.
  - by simplify_eq.
  - by simplify_eq.
  - apply andb_true_iff in H1 as [_ H1]. apply andb_true_iff in H2 as [_ H2].
    injection Heq as -> Heq. destruct (IH d2 H1 H2 Heq) as [-> ->]. done.
Qed.

Lemma pretty_Z_dash_split (z1 z2 : Z) r1 r2 :
  pretty z1 +:+ String "-" r1 = pretty z2 +:+ String "-" r2 → z1 = z2 ∧ r1 = r2.
Proof.
  intros Heq.
  destruct (pretty_Z_shape z1) as (n1 & d1 & E1 & N1 & ?).
  destruct (pretty_Z_shape z2) as (n2 & d2 & E2 & N2 & ?).
  rewrite E1, E2 in Heq.
  assert (d1 = d2 ∧ n1 = n2 ∧ r1 = r2) as (-> & -> & ->).
  { destruct n1, n2; rewrite ?app_cons, ?app_empty_l in Heq.
    - injection Heq as Heq. by destruct (numeral_dash_split _ _ _ _ N1 N2 Heq) as [-> ->].
    - destruct d2 as [|c d2]; [done|]. rewrite app_cons in Heq.
      injection Heq as <- _. done.
    - destruct d1 as [|c d1]; [done|]. rewrite app_cons in Heq.
      injection Heq as -> _. done.
    - by destruct (numeral_dash_split _ _ _ _ N1 N2 Heq) as [-> ->]. }
  split; [|done]. apply (inj pretty). by rewrite E1, E2.
Qed.

Lemma errorId_inj m1 m2 : errorId m1 = errorId m2 ↔ identityOf m1 = identityOf m2.
Proof.
  unfold errorId, identityOf. split.
  - intros Heq. apply pretty_Z_dash_split in Heq as [-> Heq].
    apply pretty_Z_dash_split in Heq as [-> ->]. done.
  - by intros [= -> -> ->].
Qed.

End Identity.

(** ** Reconciling the ignore set *)

Lemma preservedIgnored_from (S acc : gset string) (F : list Finding) :
  foldl (λ acc m, if decide (errorId m ∈ S) then acc ∪ {[errorId m]} else acc) acc F
  = acc ∪ (S ∩ list_to_set (errorId <$> F)).
Proof.
  revert acc. induction F as [|m F IH]; intros acc; simpl.
  - set_solver.
  - rewrite IH. case_decide; set_solver.
Qed.

(** C3. The ignore set stored with an accepted check result is the
    previous ignore set intersected with the identities of the new
    findings: an ignored identity (offset, length, message) that a new
    finding still has stays ignored, every other one is dropped. *)
Theorem reconcile_keeps_reported_identities (S : gset string) (F : list Finding) :
  preservedIgnored S F = S ∩ list_to_set (errorId <$> F)
  ∧ (∀ m, errorId m ∈ preservedIgnored S F
          ↔ errorId m ∈ S ∧ ∃ f, f ∈ F ∧ identityOf f = identityOf m)
  ∧ (∀ a found ai hint,
       ignoredErrors (checkText_resume (HttpOk (mkResult (Some F) found ai hint))
                                       (setIgnoredErrorsRef S a))
       = preservedIgnored S F).
Proof.
  assert (preservedIgnored S F = S ∩ list_to_set (errorId <$> F)) as Heq.
  { unfold preservedIgnored. rewrite preservedIgnored_from. set_solver. }
  split_and!; [done| |].
  - intros m. rewrite Heq, elem_of_intersection, elem_of_list_to_set, list_elem_of_fmap.
    split.
    + intros [? (f & Hid & ?)]. split; [done|]. exists f. split; [done|].
      by apply errorId_inj.
    + intros [? (f & ? & Hid)]. split; [done|]. exists f. split; [|done].
      symmetry. by apply errorId_inj.
  - done.
Qed.

(** ** The update gate *)

Section Gate.

Variables (a : App) (h : bool) (n : nat) (nt : Net).

Local Abbreviation W q u := (mkWorld a (mkEditor h (Some q) u n) nt).

(** With the gate set, an API call changes the document and nothing else. *)
Lemma api_gated f q : api f (W q true) = W (f q) true.
Proof. unfold api; simpl. by case_decide. Qed.

Lemma replaceText_at offset length replacement q u :
  replaceText offset length replacement (W q u)
  = mkWorld (handleEditorChange (contents (replaceQuill offset length replacement q))
                                (getText (replaceQuill offset length replacement q)) a)
            (mkEditor h (Some (replaceQuill offset length replacement q)) false n)
            nt.
Proof.
  unfold replaceText. cbn [editor quillInstanceRef].
  change (onEditor (setIsUpdating true) (W q u)) with (W q true).
  by rewrite !api_gated.
Qed.

Lemma markError_at len q m : markError len (W q true) m = W (markQuill len q m) true.
Proof.
  unfold markError, markQuill. destruct (inBounds len m); [|done].
  change (select ?r (W q true)) with (W (setSelection r q) true).
  by rewrite api_gated.
Qed.

Lemma foldl_markError_at len errors q :
  foldl (markError len) (W q true) errors = W (foldl (markQuill len) q errors) true.
Proof.
  revert q. induction errors as [|m errors IH]; intros q; [done|].
  simpl. by rewrite markError_at, IH.
Qed.

End Gate.

(** ** The document operations *)

Section Document.

Lemma str_length l : String.length (str l) = length l.
Proof. induction l as [|c l IH]; simpl; [done|]. by rewrite IH. Qed.

Lemma str_app l1 l2 : str (l1 ++ l2) = str l1 +:+ str l2.
Proof. induction l1 as [|c l1 IH]; simpl; [done|]. by rewrite IH. Qed.

Lemma str_chars s : str (chars s) = s.
Proof. apply string_of_list_ascii_of_string. Qed.

Lemma chars_str l : chars (str l) = l.
Proof. apply list_ascii_of_string_of_list_ascii. Qed.

Lemma plain_chars s : (plain s).*1 = chars s.
Proof. unfold plain. rewrite <-list_fmap_compose. apply list_fmap_id. Qed.

Lemma textLength_getText q : textLength (getText q) = Z.of_nat (length (contents q)).
Proof. unfold textLength, getText. by rewrite str_length, length_fmap. Qed.

Lemma formatText_chars index len value q :
  (contents (formatText index len value q)).*1 = (contents q).*1.
Proof.
  unfold formatText. destruct (bool_decide (0 ≤ index)%Z && _ && _); [|done].
  cbn [contents]. rewrite fmap_imap.
  rewrite <-(imap_const fst). apply imap_ext. intros i ce _. simpl.
  by destruct (within _ _ _).
Qed.

Lemma formatText_selection index len value q :
  selection (formatText index len value q) = selection q.
Proof. unfold formatText. by destruct (bool_decide (0 ≤ index)%Z && _ && _). Qed.

Lemma formatText_length index len value q :
  length (contents (formatText index len value q)) = length (contents q).
Proof. by rewrite <-(length_fmap fst), formatText_chars, length_fmap. Qed.

(** Clearing the mark over the whole text leaves no mark at all. *)
Lemma formatText_clear q : formatText 0 (textLength (getText q)) false q = cleared q.
Proof.
  unfold formatText, cleared. rewrite textLength_getText.
  rewrite !bool_decide_eq_true_2 by lia. cbn [andb]. f_equal.
  rewrite <-list_fmap_compose, <-imap_const. apply imap_ext.
  intros i [c b] Hi; simpl. apply lookup_lt_Some in Hi.
  unfold within. rewrite !bool_decide_eq_true_2 by lia. cbn [andb].
  by case_bool_decide.
Qed.

Lemma setSelection_same q : setSelection (selection q) q = q.
Proof. by destruct q. Qed.

Lemma cleared_empty q : contents q = [] → cleared q = q.
Proof. destruct q as [cs sel]; simpl. by intros ->. Qed.

Lemma markQuill_chars len q m : (contents (markQuill len q m)).*1 = (contents q).*1.
Proof.
  unfold markQuill. destruct (inBounds len m); [|done].
  unfold format. cbn [selection setSelection]. by rewrite formatText_chars.
Qed.

Lemma foldl_markQuill_chars len errors q :
  (contents (foldl (markQuill len) q errors)).*1 = (contents q).*1.
Proof.
  revert q. induction errors as [|m errors IH]; intros q; [done|].
  simpl. by rewrite IH, markQuill_chars.
Qed.

(** The projection starts from the unmarked document whatever marks the
    document carried. *)
Lemma projectQuill_cleared errors q :
  projectQuill errors q
  = setSelection (selection q)
      (foldl (markQuill (textLength (getText q))) (cleared q) errors).
Proof.
  unfold projectQuill. case_bool_decide as Hlen.
  - by rewrite formatText_clear.
  - rewrite cleared_empty; [done|].
    rewrite textLength_getText in Hlen. destruct (contents q); [done|simpl in Hlen; lia].
Qed.

Lemma projectQuill_chars errors q :
  (contents (projectQuill errors q)).*1 = (contents q).*1.
Proof.
  rewrite projectQuill_cleared. simpl. rewrite foldl_markQuill_chars. simpl.
  rewrite <-list_fmap_compose. apply list_fmap_id.
Qed.

Lemma projectQuill_getText errors q : getText (projectQuill errors q) = getText q.
Proof. unfold getText. by rewrite projectQuill_chars. Qed.

Lemma projectQuill_selection errors q : selection (projectQuill errors q) = selection q.
Proof. by rewrite projectQuill_cleared. Qed.

Lemma projectQuill_idem errors q :
  projectQuill errors (projectQuill errors q) = projectQuill errors q.
Proof.
  rewrite (projectQuill_cleared errors (projectQuill errors q)).
  rewrite projectQuill_getText.
  replace (cleared (projectQuill errors q)) with (cleared q).
  - by rewrite projectQuill_selection, <-projectQuill_cleared.
  - unfold cleared. by rewrite projectQuill_chars, projectQuill_selection.
Qed.

(** A finding that fails the guard leaves the loop state as it is. *)
Lemma projectQuill_skip pre m post q :
  inBounds (textLength (getText q)) m = false →
  projectQuill (pre ++ m :: post) q = projectQuill (pre ++ post) q.
Proof.
  intros Hm. unfold projectQuill. rewrite !foldl_app. simpl.
  unfold markQuill at 2. by rewrite Hm.
Qed.

End Document.

(** ** Projection of the active findings *)

Lemma projection_at a h n nt q u errors :
  projection errors (mkWorld a (mkEditor h (Some q) u n) nt)
  = if bool_decide (errors = [] ∧ ¬ (0 < textLength (getText q))%Z)
    then mkWorld a (mkEditor h (Some q) u n) nt
    else mkWorld a (mkEditor h (Some (projectQuill errors q)) false n) nt.
Proof.
  unfold projection. cbn [editor quillInstanceRef].
  change (onEditor (setIsUpdating true) (mkWorld a (mkEditor h (Some q) u n) nt))
    with (mkWorld a (mkEditor h (Some q) true n) nt).
  destruct errors as [|m errors].
  - case_bool_decide as Hlen.
    + rewrite bool_decide_eq_false_2 by tauto. rewrite api_gated.
      unfold projectQuill. rewrite bool_decide_eq_true_2 by done.
      cbn [foldl]. by rewrite setSelection_same.
    + by rewrite bool_decide_eq_true_2.
  - rewrite (bool_decide_eq_false_2 (_ ∧ _)) by (by intros [? _]).
    unfold projectQuill. case_bool_decide.
    + by rewrite api_gated, foldl_markError_at.
    + by rewrite foldl_markError_at.
Qed.

Lemma inBounds_false len m :
  (match_offset m < 0 ∨ match_length m ≤ 0 ∨ len < match_offset m + match_length m)%Z →
  inBounds len m = false.
Proof.
  intros H. unfold inBounds, or_zero. apply not_true_is_false. intros Hb.
  apply andb_true_iff in Hb as [Hb H3]. apply andb_true_iff in Hb as [H1 H2].
  apply bool_decide_eq_true in H1, H2, H3. repeat case_bool_decide; lia.
Qed.

(** C4. Projecting the same findings a second time leaves the editor, and
    with it the whole state, as the first projection left it: the marks
    are cleared over the whole text and then set again for the findings
    within bounds. *)
Theorem projection_idempotent (errors : list Finding) (w : World) :
  projection errors (projection errors w) = projection errors w.
Proof.
  destruct w as [a [h [q|] u n] nt]; [|done].
  rewrite projection_at. case_bool_decide as Hc.
  - rewrite projection_at. by rewrite bool_decide_eq_true_2.
  - rewrite projection_at. rewrite projectQuill_getText, projectQuill_idem.
    by rewrite bool_decide_eq_false_2.
Qed.

(** C5. A finding with [offset < 0], [length <= 0] or
    [offset + length] beyond the text is skipped by the marking loop: the
    loop body leaves the state untouched, and the projection of a list
    that contains the finding is the projection of the list without it,
    so the other findings are marked as usual. *)
Theorem out_of_range_finding_skipped (pre post : list Finding) (m : Finding)
    (w : World) (q : Quill) :
  quillInstanceRef (editor w) = Some q →
  isUpdatingRef (editor w) = false →
  (match_offset m < 0 ∨ match_length m ≤ 0
   ∨ textLength (getText q) < match_offset m + match_length m)%Z →
  markError (textLength (getText q)) w m = w
  ∧ projection (pre ++ m :: post) w = projection (pre ++ post) w.
Proof.
  intros Hq Hu Hm. apply inBounds_false in Hm. split.
  - unfold markError. by rewrite Hm.
  - destruct w as [a [h q' u n] nt]; simpl in *. subst q' u.
    rewrite !projection_at. rewrite projectQuill_skip by done.
    rewrite (bool_decide_eq_false_2 (_ ++ _ :: _ = _ ∧ _))
      by (intros [? _]; by destruct pre).
    case_bool_decide as Hc; [|done].
    destruct Hc as [-> Hlen]. rewrite projectQuill_cleared. simpl.
    rewrite cleared_empty; [by destruct q|].
    rewrite textLength_getText in Hlen. destruct (contents q); [done|simpl in Hlen; lia].
Qed.

Lemma out_of_range_finding_skipped_witness :
  projection [spelling; mkFinding 5 10 "stale" []] checkedSession
  = projection [spelling] checkedSession.
Proof.
  refine (proj2 (out_of_range_finding_skipped [spelling] [] (mkFinding 5 10 "stale" [])
                   checkedSession (mkQuill (plain (line "Teh cat")) None) _ _ _)).
  - by vm_compute.
  - by vm_compute.
  - right; right. by vm_compute.
Defined.

Lemma markQuill_length len q m :
  length (contents (markQuill len q m)) = length (contents q).
Proof. by rewrite <-(length_fmap fst), markQuill_chars, length_fmap. Qed.

(** One round of the marking loop at one character. *)
Lemma markQuill_lookup len q m i c b0 :
  Z.of_nat (length (contents q)) = len →
  contents q !! i = Some (c, b0) →
  contents (markQuill len q m) !! i
  = Some (c, if inBounds len m
                && within (or_zero (match_offset m)) (or_zero (match_length m)) (Z.of_nat i)
             then negb (bool_decide (c = newline)) else b0).
Proof.
  intros Hlen Hi. unfold markQuill. destruct (inBounds len m) eqn:Hb; [|done].
  unfold format. cbn [selection setSelection]. unfold formatText. cbn [contents setSelection].
  unfold inBounds in Hb. apply andb_true_iff in Hb as [Hb H3].
  apply andb_true_iff in Hb as [H1 H2]. apply bool_decide_eq_true in H1, H2, H3.
  rewrite !bool_decide_eq_true_2 by lia. cbn [andb contents].
  rewrite list_lookup_imap, Hi. simpl.
  destruct (within _ _ _); [|done]. by case_bool_decide.
Qed.

(** After the marking loop a character other than a newline carries the
    mark it had before or lies in the span of a finding that passed the
    guard; a newline in such a span carries none. *)
Lemma foldl_markQuill_marks len errors q i c b0 :
  Z.of_nat (length (contents q)) = len →
  contents q !! i = Some (c, b0) →
  contents (foldl (markQuill len) q errors) !! i
  = Some (c, let covered :=
               existsb (λ m, inBounds len m
                             && within (or_zero (match_offset m))
                                       (or_zero (match_length m)) (Z.of_nat i)) errors in
             if bool_decide (c = newline) then b0 && negb covered else b0 || covered).
Proof.
  revert q b0. induction errors as [|m errors IH]; intros q b0 Hlen Hi.
  - simpl. rewrite Hi. f_equal. f_equal. case_bool_decide; by destruct b0.
  - cbn [foldl]. erewrite IH; [|by rewrite markQuill_length|by apply markQuill_lookup].
    f_equal. f_equal. cbn [existsb].
    destruct (inBounds len m && within _ _ _), (existsb _ errors), b0;
      by case_bool_decide.
Qed.

(** After a projection the marked characters are those, other than
    newlines, in the span of a finding that passed the guard, whatever was
    marked before. *)
Lemma projectQuill_marks errors q i c b :
  contents (projectQuill errors q) !! i = Some (c, b) →
  b = negb (bool_decide (c = newline))
      && existsb (λ m, inBounds (textLength (getText q)) m
                       && within (or_zero (match_offset m))
                                 (or_zero (match_length m)) (Z.of_nat i)) errors.
Proof.
  intros Hi.
  assert ((contents q).*1 !! i = Some c) as Hc.
  { rewrite <-(projectQuill_chars errors q), list_lookup_fmap, Hi. done. }
  rewrite projectQuill_cleared in Hi. cbn [contents setSelection] in Hi.
  erewrite foldl_markQuill_marks in Hi; cycle 1.
  - unfold cleared; cbn [contents]. by rewrite textLength_getText, !length_fmap.
  - unfold cleared; cbn [contents]. by rewrite list_lookup_fmap, Hc.
  - injection Hi as <-. by case_bool_decide.
Qed.

(** ** Replacement *)

Lemma take_drop_splice {A} (l : list A) (n m : nat) :
  take n (take n l ++ drop (n + m) l) = take n l
  ∧ drop n (take n l ++ drop (n + m) l) = drop (n + m) l.
Proof.
  destruct (decide (n ≤ length l)) as [Hn|Hn].
  - split.
    + apply take_app_length'. rewrite length_take. lia.
    + apply drop_app_length'. rewrite length_take. lia.
  - rewrite (take_ge l n), (drop_ge l (n + m)) by lia.
    rewrite app_nil_r. split; [apply take_ge|apply drop_ge]; lia.
Qed.

Lemma terminated_ensureNewline cs : terminated (ensureNewline cs) = true.
Proof.
  unfold ensureNewline. destruct (terminated cs) eqn:Ht; [done|].
  unfold terminated. rewrite last_snoc. by rewrite bool_decide_eq_true_2.
Qed.

Lemma ensureNewline_terminated cs : terminated cs = true → ensureNewline cs = cs.
Proof. unfold ensureNewline. by intros ->. Qed.

Lemma terminated_app_drop cs pre n :
  terminated cs = true → n < length cs → terminated (pre ++ drop n cs) = true.
Proof.
  unfold terminated. intros Ht Hn.
  destruct (last cs) as [ce|] eqn:Hl; [|done].
  apply last_Some in Hl as [l' ->]. rewrite length_app in Hn. simpl in Hn.
  rewrite drop_app_le by lia. by rewrite !app_assoc, last_snoc.
Qed.

Lemma terminated_snoc cs x : terminated (cs ++ [x]) = bool_decide (x.1 = newline).
Proof. unfold terminated. by rewrite last_snoc. Qed.

Lemma inserted_chars firstLine cs i t : (inserted firstLine cs i t).*1 = t.
Proof.
  revert firstLine. induction t as [|c t IH]; intros firstLine; [done|].
  simpl. case_bool_decide; simpl; by rewrite IH.
Qed.

Lemma normaliseLineEnds_id t : carriageReturn ∉ t → normaliseLineEnds t = t.
Proof.
  induction t as [|c t IH]; [done|]. intros Hc.
  apply not_elem_of_cons in Hc as [Hc Ht]. simpl.
  rewrite bool_decide_eq_false_2 by done. by rewrite IH.
Qed.

Lemma formatText_outside index len value q n :
  (0 ≤ index)%Z → (0 ≤ len)%Z →
  take (Z.to_nat index) (contents (formatText index len value q))
  = take (Z.to_nat index) (contents q)
  ∧ drop (Z.to_nat index + Z.to_nat len + n) (contents (formatText index len value q))
    = drop (Z.to_nat index + Z.to_nat len + n) (contents q).
Proof.
  intros Hi Hl. unfold formatText, within.
  destruct (bool_decide (0 ≤ index)%Z && _ && _); [|done].
  cbn [contents]. split; apply list_eq; intros i.
  - rewrite !lookup_take. case_decide; [|done].
    rewrite list_lookup_imap. destruct (contents q !! i) as [[c b]|]; [|done]. simpl.
    rewrite (bool_decide_eq_false_2 (index ≤ _)%Z) by lia. done.
  - rewrite !lookup_drop, list_lookup_imap.
    destruct (contents q !! _) as [[c b]|]; [|done]. simpl.
    rewrite (bool_decide_eq_false_2 (_ < index + len)%Z) by lia.
    by rewrite andb_false_r.
Qed.

(** The document after the Quill calls of [replaceText] on a span that
    stops before the final newline: the characters around the span with
    their marks, and the replacement between them. *)
Lemma replaceQuill_inside offset len replacement q :
  terminated (contents q) = true →
  carriageReturn ∉ chars replacement →
  (0 ≤ offset)%Z → (0 ≤ len)%Z →
  (offset + len < Z.of_nat (length (contents q)))%Z →
  ∃ ins, ins.*1 = chars replacement
         ∧ contents (replaceQuill offset len replacement q)
           = take (Z.to_nat offset) (contents q) ++ ins
             ++ drop (Z.to_nat offset + Z.to_nat len) (contents q).
Proof.
  intros Hterm Hcr Ho Hl Hin.
  destruct (formatText_outside offset len false q 0 Ho Hl) as [Ht Hd].
  rewrite Nat.add_0_r in Hd.
  set (o := Z.to_nat offset) in *. set (l := Z.to_nat len) in *.
  set (c2 := take o (contents q) ++ drop (o + l) (contents q)).
  assert (contents (deleteText offset len (formatText offset len false q)) = c2) as Hdel.
  { unfold deleteText. case_bool_decide as H0.
    - assert (len = 0%Z) as Hz by lia. subst c2 l. rewrite Hz in *.
      replace (Z.to_nat 0) with 0 in * by done. rewrite Nat.add_0_r in *.
      by rewrite <-Ht, <-Hd, take_drop.
    - cbn [contents]. rewrite Z2Nat.inj_add by lia. fold o l. rewrite Ht, Hd.
      apply ensureNewline_terminated, terminated_app_drop; [done|]. lia. }
  exists (inserted true c2 o (chars replacement)). split; [apply inserted_chars|].
  unfold replaceQuill, insertText. cbn [contents setSelection].
  rewrite Hdel, (normaliseLineEnds_id _ Hcr). fold o.
  rewrite bool_decide_eq_false_2.
  - subst c2. by destruct (take_drop_splice (contents q) o l) as [-> ->].
  - subst c2. rewrite length_app, length_take, length_drop. lia.
Qed.

Lemma replaceQuill_inside_text offset len replacement q :
  terminated (contents q) = true →
  carriageReturn ∉ chars replacement →
  (0 ≤ offset)%Z → (0 ≤ len)%Z →
  (offset + len < textLength (getText q))%Z →
  getText (replaceQuill offset len replacement q) = spliced (getText q) offset len replacement.
Proof.
  intros Hterm Hcr Ho Hl Hin. rewrite textLength_getText in Hin.
  destruct (replaceQuill_inside offset len replacement q Hterm Hcr Ho Hl Hin)
    as (ins & Hins & Hc).
  unfold getText, spliced. rewrite Hc, !fmap_app, fmap_take, fmap_drop, Hins.
  by rewrite !str_app, str_chars, chars_str, Z2Nat.inj_add.
Qed.

Lemma withoutFinalNewline_spec t :
  withoutFinalNewline t = t ∨ withoutFinalNewline t ++ [newline] = t.
Proof.
  unfold withoutFinalNewline. destruct (last t) as [c|] eqn:Hl; [|by left].
  case_bool_decide as Hc; [|by left]. right.
  apply last_Some in Hl as [t' ->]. rewrite length_app. simpl.
  rewrite Nat.add_sub, take_app_length. by rewrite Hc.
Qed.

(** The text after the Quill calls of [replaceText] on a span that ends
    beyond the document: what stood before the offset, the replacement,
    and the final newline if the replacement does not bring it. *)
Lemma replaceQuill_beyond offset len replacement q :
  terminated (contents q) = true →
  carriageReturn ∉ chars replacement →
  (0 ≤ offset)%Z → (0 < len)%Z →
  (Z.of_nat (length (contents q)) < offset + len)%Z →
  terminated (contents (replaceQuill offset len replacement q)) = true
  ∧ ((contents (replaceQuill offset len replacement q)).*1
     = take (Z.to_nat offset) (contents q).*1 ++ chars replacement
     ∨ (contents (replaceQuill offset len replacement q)).*1
       = take (Z.to_nat offset) (contents q).*1 ++ chars replacement ++ [newline]).
Proof.
  intros Hterm Hcr Ho Hl Hout.
  unfold replaceQuill, insertText, deleteText. cbn [contents setSelection].
  rewrite (normaliseLineEnds_id _ Hcr).
  rewrite (bool_decide_eq_false_2 (len ≤ 0)%Z) by lia. cbn [contents].
  assert (formatText offset len false q = q) as ->.
  { unfold formatText. rewrite (bool_decide_eq_false_2 (offset + len ≤ _)%Z) by lia.
    by rewrite andb_false_r. }
  rewrite (drop_ge (contents q)) by lia. rewrite app_nil_r.
  set (o := Z.to_nat offset). unfold ensureNewline.
  destruct (terminated (take o (contents q))) eqn:Hto.
  - rewrite bool_decide_eq_true_2 by (rewrite length_take; lia).
    split; [by rewrite app_assoc, terminated_snoc, bool_decide_eq_true_2|].
    rewrite !fmap_app, fmap_take, <-list_fmap_compose, list_fmap_id. simpl.
    destruct (withoutFinalNewline_spec (chars replacement)) as [->|Hw].
    + by right.
    + left. by rewrite Hw.
  - assert (o < length (contents q)) as Hlt.
    { destruct (decide (o < length (contents q))); [done|].
      rewrite take_ge in Hto by lia. congruence. }
    rewrite bool_decide_eq_false_2 by (rewrite length_app, length_take; simpl; lia).
    rewrite take_app_length' by (rewrite length_take; lia).
    rewrite drop_app_length' by (rewrite length_take; lia).
    split; [by rewrite !app_assoc, terminated_snoc, bool_decide_eq_true_2|].
    right. by rewrite !fmap_app, fmap_take, inserted_chars.
Qed.

Lemma handleReplaceText_selected w matchIndex replacementIndex r ms m replacement :
  result (app w) = Some r → matches r = Some ms → ms !! matchIndex = Some m →
  match_replacements m !! replacementIndex = Some replacement →
  falsy replacement = false → editorRef (editor w) = true →
  handleReplaceText matchIndex replacementIndex w
  = onApp (λ a, setIgnoredErrors (ignoredErrors a ∖ {[errorId m]}) a)
      (replaceText (match_offset m) (match_length m) (replacementText replacement) w).
Proof.
  intros Hr Hms Hm Hrep Hf He. unfold handleReplaceText.
  rewrite Hr, Hms, Hm, Hrep, Hf, He. simpl.
  rewrite bool_decide_eq_false_2; [done|].
  apply lookup_lt_Some in Hm. lia.
Qed.

(** C2 as stated fails.  In [lastWordSession] the finding spans
    [[4, 8)] of the text [Teh cat] with its newline, which lies within the
    text.  Accepting the replacement [dog] leaves [Teh dog] with the final
    newline that the editor keeps, not [D[0:4] + dog + D[8:]]; and
    accepting the replacement that is the empty string changes nothing,
    since [handleReplaceText] takes it for a missing entry.  In
    [lineBreakSession] the replacement is a carriage return, and the
    editor puts a newline in its place. *)
Lemma replacement_over_final_newline_keeps_it :
  getText <$> quillInstanceRef (editor lastWordSession) = Some (line "Teh cat")
  ∧ activeErrors (result (app lastWordSession)) (ignoredErrors (app lastWordSession))
    = [lastWord]
  ∧ spliced (line "Teh cat") 4 4 "dog" = "Teh dog"
  ∧ text (app (handleReplaceText 0 0 lastWordSession)) = line "Teh dog"
  ∧ text (app (handleReplaceText 0 0 lastWordSession)) ≠ spliced (line "Teh cat") 4 4 "dog"
  ∧ spliced (line "Teh cat") 4 4 EmptyString = "Teh "
  ∧ text (app (handleReplaceText 0 1 lastWordSession)) = line "Teh cat"
  ∧ text (app (handleReplaceText 0 0 lineBreakSession)) = line "Teh" +:+ line "cat"
  ∧ text (app (handleReplaceText 0 0 lineBreakSession))
    ≠ spliced (line "Teh cat") 3 1 (String carriageReturn EmptyString).
Proof. split_and!; by vm_compute. Qed.

(** C2, amended.  For a document whose text [D] ends with the newline
    that the editor keeps, a finding whose span [[offset, offset+length)]
    starts at or after 0 and stops before that final newline, and a
    replacement entry other than the empty string and without carriage
    returns, accepting the replacement leaves the document, and the
    [text] handed to [App], equal to
    [D[0:offset] + replacement + D[offset+length:]]. *)
Theorem replace_before_final_newline_splices (w : World) (q : Quill)
    (matchIndex replacementIndex : nat) (r : CheckResult) (ms : list Finding)
    (m : Finding) (replacement : Replacement) :
  result (app w) = Some r → matches r = Some ms → ms !! matchIndex = Some m →
  match_replacements m !! replacementIndex = Some replacement →
  falsy replacement = false → editorRef (editor w) = true →
  quillInstanceRef (editor w) = Some q →
  terminated (contents q) = true →
  carriageReturn ∉ chars (replacementText replacement) →
  (0 ≤ match_offset m)%Z → (0 ≤ match_length m)%Z →
  (match_offset m + match_length m < textLength (getText q))%Z →
  let w' := handleReplaceText matchIndex replacementIndex w in
  let D := getText q in
  let t := replacementText replacement in
  getText <$> quillInstanceRef (editor w')
  = Some (str (take (Z.to_nat (match_offset m)) (chars D)) +:+ t
          +:+ str (drop (Z.to_nat (match_offset m + match_length m)) (chars D)))
  ∧ text (app w') = spliced D (match_offset m) (match_length m) t.
Proof.
  intros Hr Hms Hm Hrep Hf He Hq Hterm Hcr Ho Hl Hin w' D t. subst w'.
  rewrite (handleReplaceText_selected _ _ _ _ _ _ _ Hr Hms Hm Hrep Hf He).
  destruct w as [a [h q0 u n] nt]; simpl in Hq; subst q0.
  rewrite replaceText_at. simpl.
  rewrite (replaceQuill_inside_text _ _ _ q Hterm Hcr Ho Hl Hin). by split.
Qed.

Lemma replace_before_final_newline_splices_witness :
  text (app (handleReplaceText 0 0 checkedSession)) = line "The cat".
Proof.
  refine (proj2 (replace_before_final_newline_splices checkedSession
            (mkQuill (plain (line "Teh cat")) None) 0 0
            (mkResult (Some [spelling]) 1 false None) [spelling] spelling (RString "The")
            _ _ _ _ _ _ _ _ _ _ _ _)); try (vm_compute; congruence).
  by apply (bool_decide_unpack _).
Defined.

(** C9 as stated fails.  In [driftedSession] the finding on display spans
    [[8, 14)] of a text of length 11; accepting its replacement is not a
    no-op: the document changes. *)
Lemma stale_span_replacement_mutates :
  getText <$> quillInstanceRef (editor driftedSession) = Some (line "Teh cat on")
  ∧ activeErrors (result (app driftedSession)) (ignoredErrors (app driftedSession))
    = [preposition]
  ∧ getText <$> quillInstanceRef (editor (step driftedSession (ClickReplacement 0 0)))
    = Some (line "Teh cat in the")
  ∧ editor (step driftedSession (ClickReplacement 0 0)) ≠ editor driftedSession.
Proof. split_and!; [by vm_compute..|]. vm_compute. congruence. Qed.

(** C9, amended.  A replacement, by a text without carriage returns, whose
    span starts at or after 0 and ends beyond the text is not a no-op and
    nothing is reported: [replaceText] makes the same editor calls as for
    any span, so what stood before the offset stays, the rest of the text
    is replaced by the replacement, the document still ends with a
    newline, the new text is handed to [onChange] and the gate is
    released. *)
Theorem replace_beyond_document_is_carried_out (w : World) (q : Quill)
    (offset length : Z) (replacement : string) :
  quillInstanceRef (editor w) = Some q →
  terminated (contents q) = true →
  carriageReturn ∉ chars replacement →
  (0 ≤ offset)%Z → (0 < length)%Z →
  (textLength (getText q) < offset + length)%Z →
  let w' := replaceText offset length replacement w in
  let kept := str (take (Z.to_nat offset) (chars (getText q))) in
  ∃ q', quillInstanceRef (editor w') = Some q'
        ∧ (getText q' = kept +:+ replacement
           ∨ getText q' = kept +:+ replacement +:+ String newline EmptyString)
        ∧ terminated (contents q') = true
        ∧ text (app w') = getText q'
        ∧ isUpdatingRef (editor w') = false.
Proof.
  intros Hq Hterm Hcr Ho Hl Hlen w' kept. subst w' kept.
  destruct w as [a [h q0 u n] nt]; simpl in Hq; subst q0.
  rewrite replaceText_at. cbn [editor quillInstanceRef isUpdatingRef app].
  rewrite textLength_getText in Hlen.
  destruct (replaceQuill_beyond offset length replacement q Hterm Hcr Ho Hl Hlen)
    as [Ht Htext].
  exists (replaceQuill offset length replacement q). split_and!; try done.
  assert (chars (getText q) = (contents q).*1) as -> by (unfold getText; apply chars_str).
  unfold getText.
  destruct Htext as [-> | ->]; [left|right];
    by rewrite !str_app, ?str_chars.
Qed.

Lemma replace_beyond_document_is_carried_out_witness :
  ∃ q', quillInstanceRef (editor (replaceText 8 6 "in the" driftedSession)) = Some q'
        ∧ (getText q' = "Teh cat in the"
           ∨ getText q' = line "Teh cat in the")
        ∧ terminated (contents q') = true
        ∧ text (app (replaceText 8 6 "in the" driftedSession)) = getText q'
        ∧ isUpdatingRef (editor (replaceText 8 6 "in the" driftedSession)) = false.
Proof.
  refine (replace_beyond_document_is_carried_out driftedSession
            (mkQuill (plain (line "Teh cat on")) None) 8 6 "in the" _ _ _ _ _ _);
    try (vm_compute; congruence).
  by apply (bool_decide_unpack _).
Defined.

Lemma commit_same_text a : commit (text a) a = syncIgnoredRef a.
Proof. unfold commit. by rewrite decide_True. Qed.

(** C10. When the click selects nothing, because there is no check
    result, no match list, no match at [matchIndex] or no replacement at
    [replacementIndex], [handleReplaceText] returns with the state as it
    was: the document, the check result and the ignore set are untouched,
    also after the re-render. *)
Theorem replace_click_without_target_is_noop (w : World) (matchIndex replacementIndex : nat) :
  replacementAt w matchIndex replacementIndex = None →
  handleReplaceText matchIndex replacementIndex w = w
  ∧ editor (step w (ClickReplacement matchIndex replacementIndex)) = editor w
  ∧ result (app (step w (ClickReplacement matchIndex replacementIndex))) = result (app w)
  ∧ ignoredErrors (app (step w (ClickReplacement matchIndex replacementIndex)))
    = ignoredErrors (app w)
  ∧ text (app (step w (ClickReplacement matchIndex replacementIndex))) = text (app w).
Proof.
  intros Hnone.
  assert (handleReplaceText matchIndex replacementIndex w = w) as Hh.
  { unfold handleReplaceText, replacementAt in *.
    destruct (result (app w)) as [r|]; [|done]. simpl in Hnone.
    destruct (matches r) as [ms|]; [|done]. simpl in Hnone.
    case_bool_decide; [done|].
    destruct (ms !! matchIndex) as [m|]; [|done]. simpl in Hnone.
    by rewrite Hnone. }
  split; [done|]. unfold step. simpl. rewrite Hh, commit_same_text. done.
Qed.

Lemma replace_click_without_target_is_noop_witness :
  handleReplaceText 1 0 checkedSession = checkedSession
  ∧ handleReplaceText 0 7 checkedSession = checkedSession
  ∧ handleReplaceText 0 0 (init emptyDocument) = init emptyDocument.
Proof.
  split_and!.
  - exact (proj1 (replace_click_without_target_is_noop checkedSession 1 0 eq_refl)).
  - exact (proj1 (replace_click_without_target_is_noop checkedSession 0 7 eq_refl)).
  - exact (proj1 (replace_click_without_target_is_noop (init emptyDocument) 0 0
                   eq_refl)).
Defined.

(** ** The gate and the change notifications *)

Lemma text_change_handler_gated w :
  isUpdatingRef (editor w) = true → text_change_handler w = w.
Proof. intros H. unfold text_change_handler. by rewrite H. Qed.

(** Without the gate an edit is forwarded to [onChange]. *)
Lemma api_ungated f w q :
  quillInstanceRef (editor w) = Some q → isUpdatingRef (editor w) = false →
  contents (f q) ≠ contents q →
  api f w = mkWorld (handleEditorChange (contents (f q)) (getText (f q)) (app w))
                    (mkEditor (editorRef (editor w)) (Some (f q)) false
                              (S (forwarded (editor w))))
                    (net w).
Proof.
  intros Hq Hu Hne. destruct w as [a [h q' u n] nt]; simpl in *; subst q' u.
  unfold api; simpl. by rewrite decide_False.
Qed.

Lemma api_net f w : net (api f w) = net w.
Proof.
  destruct w as [a [h [q|] u n] nt]; [|done]. unfold api; simpl.
  case_decide; [done|]. unfold text_change_handler; simpl. by destruct u.
Qed.

Lemma projection_app_net errors w :
  app (projection errors w) = app w ∧ net (projection errors w) = net w
  ∧ forwarded (editor (projection errors w)) = forwarded (editor w)
  ∧ editorRef (editor (projection errors w)) = editorRef (editor w).
Proof.
  destruct w as [a [h [q|] u n] nt]; [|done].
  rewrite projection_at. by case_bool_decide.
Qed.

(** C6. With [isUpdatingRef] set the text-change handler returns at once:
    an API call made under the gate changes neither [App] nor the count
    of forwarded notifications.  Hence the projection leaves [App], with
    its debounce timer, and the requests as they were, and [replaceText]
    forwards none of the notifications of its three edits; the one
    [onChange] it makes itself does not touch the pending timer either. *)
Theorem update_gate_blocks_notifications (w : World) :
  let gated := onEditor (setIsUpdating true) w in
  text_change_handler gated = gated
  ∧ (∀ f, app (api f gated) = app w
          ∧ forwarded (editor (api f gated)) = forwarded (editor w)
          ∧ net (api f gated) = net w)
  ∧ (∀ errors, app (projection errors w) = app w
               ∧ forwarded (editor (projection errors w)) = forwarded (editor w)
               ∧ net (projection errors w) = net w)
  ∧ (∀ offset length replacement,
       forwarded (editor (replaceText offset length replacement w)) = forwarded (editor w)
       ∧ net (replaceText offset length replacement w) = net w
       ∧ debounceTimerRef (app (replaceText offset length replacement w))
         = debounceTimerRef (app w))
  ∧ app (step w ProjectionTimer) = syncIgnoredRef (app w)
  ∧ net (step w ProjectionTimer) = net w.
Proof.
  split_and!.
  - by apply text_change_handler_gated.
  - intros f. destruct w as [a [h [q|] u n] nt]; [|done].
    change (onEditor (setIsUpdating true) (mkWorld a (mkEditor h (Some q) u n) nt))
      with (mkWorld a (mkEditor h (Some q) true n) nt).
    by rewrite api_gated.
  - intros errors. by destruct (projection_app_net errors w) as (-> & -> & -> & _).
  - intros offset length replacement. destruct w as [a [h [q|] u n] nt]; [|done].
    by rewrite replaceText_at.
  - unfold step; simpl.
    destruct (projection_app_net
                (activeErrors (result (app w)) (ignoredErrors (app w))) w) as (-> & _).
    apply commit_same_text.
  - unfold step; simpl. apply projection_app_net.
Qed.

(** ** The check scheduler *)

Lemma commit_text prev a : text (commit prev a) = text a.
Proof.
  unfold commit. case_decide; [done|]. unfold debounceEffect. simpl.
  by destruct (blank (text a)).
Qed.

Lemma api_text_or_same f w :
  debounceTimerRef (app (api f w)) = debounceTimerRef (app w)
  ∧ result (app (api f w)) = result (app w)
  ∧ ignoredErrors (app (api f w)) = ignoredErrors (app w).
Proof.
  destruct w as [a [h [q|] u n] nt]; [|done]. unfold api; simpl.
  case_decide; [done|]. unfold text_change_handler; simpl. by destruct u.
Qed.

Lemma replaceText_net offset len replacement w :
  net (replaceText offset len replacement w) = net w.
Proof. destruct w as [a [h [q|] u n] nt]; [|done]. by rewrite replaceText_at. Qed.

Lemma handleReplaceText_net matchIndex replacementIndex w :
  net (handleReplaceText matchIndex replacementIndex w) = net w.
Proof.
  unfold handleReplaceText. repeat case_match; try done.
  simpl. apply replaceText_net.
Qed.

Lemma handleIgnoreError_net_text matchIndex w :
  net (handleIgnoreError matchIndex w) = net w
  ∧ text (app (handleIgnoreError matchIndex w)) = text (app w).
Proof. unfold handleIgnoreError. by repeat case_match. Qed.

Lemma checkText_text t w : text (app (checkText t w)) = text (app w).
Proof. unfold checkText. by destruct (blank t). Qed.

Lemma checkText_resume_text o a : text (checkText_resume o a) = text a.
Proof. by destruct o. Qed.

(** A turn of the event loop sends at most one request, only from the
    debounce timer, only for a text that is not blank, and without
    changing [text]. *)
Lemma handle_posted e w :
  posted (net (handle e w)) = posted (net w)
  ∨ ∃ t, blank t = false ∧ debounceTimerRef (app w) = Some t
         ∧ posted (net (handle e w)) = posted (net w) ++ [t]
         ∧ text (app (handle e w)) = text (app w).
Proof.
  destruct e as [cs| |request o| |i|i j]; simpl.
  - left. by rewrite api_net.
  - destruct (debounceTimerRef (app w)) as [t|] eqn:Ht; [|by left].
    unfold checkText. destruct (blank t) eqn:Hb; [by left|].
    right. by exists t.
  - left. by case_decide.
  - left. by destruct (projection_app_net
                         (activeErrors (result (app w)) (ignoredErrors (app w))) w)
      as (_ & -> & _).
  - left. by destruct (handleIgnoreError_net_text i w) as [-> _].
  - left. by rewrite handleReplaceText_net.
Qed.

Lemma step_net e w : net (step w e) = net (handle e w).
Proof. done. Qed.

Lemma run_posted_nonblank trace w :
  Forall (λ t, blank t = false) (posted (net w)) →
  Forall (λ t, blank t = false) (posted (net (run w trace))).
Proof.
  revert w. induction trace as [|e trace IH]; intros w Hw; [done|].
  simpl. apply IH. rewrite step_net.
  destruct (handle_posted e w) as [->|(t & Hb & _ & -> & _)]; [done|].
  apply Forall_app. split; [done|]. by constructor.
Qed.

(** C7. In a turn that leaves [text] changed and blank, the re-render
    cancels the debounce timer and clears the check result, the error and
    the ignore set; the turn sends no request and, no timer being left,
    neither does a timer tick after it.  Over a whole session no request
    is ever sent for a blank text. *)
Theorem empty_text_clears_and_sends_nothing (w : World) (e : Event) :
  text (app (step w e)) ≠ text (app w) →
  blank (text (app (step w e))) = true →
  debounceTimerRef (app (step w e)) = None
  ∧ result (app (step w e)) = None
  ∧ error (app (step w e)) = None
  ∧ ignoredErrors (app (step w e)) = ∅
  ∧ ignoredErrorsRef (app (step w e)) = ∅
  ∧ posted (net (step w e)) = posted (net w)
  ∧ net (step (step w e) DebounceTimer) = net (step w e)
  ∧ ∀ doc trace, Forall (λ t, blank t = false) (posted (net (run (init doc) trace))).
Proof.
  intros Hchg Hblank.
  assert (app (step w e)
          = syncIgnoredRef (debounceEffect (syncIgnoredRef (app (handle e w))))) as Happ.
  { unfold step in *; simpl in *. rewrite commit_text in Hchg.
    unfold commit. by rewrite decide_False. }
  assert (blank (text (syncIgnoredRef (app (handle e w)))) = true) as Hb.
  { unfold step in Hblank; simpl in Hblank. by rewrite commit_text in Hblank. }
  assert (debounceTimerRef (app (step w e)) = None) as Htimer.
  { rewrite Happ. unfold debounceEffect. simpl in *. by rewrite Hb. }
  split_and!; try (rewrite Happ; unfold debounceEffect; simpl in *; by rewrite Hb).
  - rewrite step_net. destruct (handle_posted e w) as [->|(t & _ & _ & _ & Ht)]; [done|].
    unfold step in Hchg; simpl in Hchg. by rewrite commit_text in Hchg.
  - change (net (step (step w e) DebounceTimer))
      with (net (handle DebounceTimer (step w e))).
    unfold handle. by rewrite Htimer.
  - intros doc trace. by apply run_posted_nonblank.
Qed.

Lemma empty_text_clears_and_sends_nothing_witness :
  result (app (step recheckingSession (UserEdit (plain (line " "))))) = None
  ∧ result (app recheckingSession) ≠ None
  ∧ debounceTimerRef (app (step checkedSession (UserEdit (plain (line "Teh"))))) ≠ None.
Proof.
  split_and!.
  - refine (proj1 (proj2 (empty_text_clears_and_sends_nothing recheckingSession
                            (UserEdit (plain (line " "))) _ _))); vm_compute; congruence.
  - vm_compute; congruence.
  - vm_compute; congruence.
Defined.

Lemma or_string_nonempty a b : b ≠ EmptyString → or_string a b ≠ EmptyString.
Proof.
  intros Hb. unfold or_string. destruct a as [s|]; [|done]. by case_bool_decide.
Qed.

Lemma failureMessage_failed o :
  failed o = true → ∃ msg, failureMessage o = Some msg ∧ msg ≠ EmptyString.
Proof.
  destruct o as [message|detail|data]; [| |done]; intros _; cbn [failureMessage];
    (eexists; split; [reflexivity|]); by apply or_string_nonempty.
Qed.

Lemma step_response w request o :
  request ∈ awaiting (net w) →
  step w (Response request o)
  = mkWorld (syncIgnoredRef (checkText_resume o (app w))) (editor w)
            (mkNet (posted (net w)) (awaiting (net w) ∖ {[request]})).
Proof.
  intros Hin. unfold step, handle. rewrite decide_True by done. simpl.
  unfold onApp; simpl. f_equal.
  rewrite <-(checkText_resume_text o (app w)). apply commit_same_text.
Qed.

(** An edit that leaves a new, non-blank text arms the debounce timer,
    and the tick of the timer posts that text. *)
Lemma edit_then_tick_posts w q newContents :
  quillInstanceRef (editor w) = Some q → isUpdatingRef (editor w) = false →
  newContents ≠ contents q →
  str newContents.*1 ≠ text (app w) → blank (str newContents.*1) = false →
  debounceTimerRef (app (step w (UserEdit newContents))) = Some (str newContents.*1)
  ∧ net (run w [UserEdit newContents; DebounceTimer])
    = mkNet (posted (net w) ++ [str newContents.*1])
            (awaiting (net w) ∪ {[length (posted (net w))]}).
Proof.
  intros Hq Hu Hne Htext Hblank.
  assert (step w (UserEdit newContents)
          = mkWorld (syncIgnoredRef
                       (setDebounceTimer (Some (str newContents.*1))
                          (syncIgnoredRef
                             (handleEditorChange newContents (str newContents.*1) (app w)))))
                    (mkEditor (editorRef (editor w))
                              (Some (mkQuill newContents (selection q))) false
                              (S (forwarded (editor w))))
                    (net w)) as Hstep.
  { unfold step, handle.
    rewrite (api_ungated _ w q Hq Hu) by done. unfold onApp; simpl. f_equal.
    unfold commit. rewrite decide_False by done.
    unfold debounceEffect, getText; simpl. by rewrite Hblank. }
  split; [by rewrite Hstep|].
  change (run w [UserEdit newContents; DebounceTimer])
    with (step (step w (UserEdit newContents)) DebounceTimer).
  rewrite Hstep. unfold step, handle; simpl.
  unfold checkText. by rewrite Hblank.
Qed.

(** The tick of a pending timer whose text is not blank. *)
Lemma step_tick w t :
  debounceTimerRef (app w) = Some t → blank t = false →
  step w DebounceTimer
  = mkWorld (syncIgnoredRef (setError None (setLoading true (setDebounceTimer None (app w)))))
            (editor w)
            (mkNet (posted (net w) ++ [t]) (awaiting (net w) ∪ {[length (posted (net w))]})).
Proof.
  intros Ht Hb. unfold step, handle. rewrite Ht. unfold checkText. rewrite Hb.
  unfold onApp, onNet; simpl. f_equal. unfold commit; simpl. by rewrite decide_True.
Qed.

(** C8. A check that is sent and then fails, by a rejected [fetch] or by
    a response that is not ok, leaves the check result, the ignore set
    and the document as they were before it was sent: sending it does not
    clear them, and the failure only stores a non-empty message in
    [error], which the page shows, and resets [loading].  The same holds
    of the failure of any awaited check, whatever happened since it was
    sent.  The next edit arms the timer again and its tick posts the new
    text. *)
Theorem failed_check_keeps_annotations (w v : World) (t : string) (request : nat)
    (o : Outcome) (q : Quill) (newContents : list (ascii * bool)) :
  debounceTimerRef (app w) = Some t → blank t = false →
  request ∈ awaiting (net v) → failed o = true →
  quillInstanceRef (editor w) = Some q → isUpdatingRef (editor w) = false →
  newContents ≠ contents q →
  str newContents.*1 ≠ text (app w) → blank (str newContents.*1) = false →
  let sent := step w DebounceTimer in
  let w' := step sent (Response (length (posted (net w))) o) in
  let v' := step v (Response request o) in
  (posted (net sent) = posted (net w) ++ [t]
   ∧ length (posted (net w)) ∈ awaiting (net sent)
   ∧ result (app sent) = result (app w)
   ∧ ignoredErrors (app sent) = ignoredErrors (app w)
   ∧ editor sent = editor w)
  ∧ ((∃ msg, error (app w') = Some msg ∧ msg ≠ EmptyString)
     ∧ result (app w') = result (app w)
     ∧ ignoredErrors (app w') = ignoredErrors (app w)
     ∧ editor w' = editor w
     ∧ loading (app w') = false)
  ∧ ((∃ msg, error (app v') = Some msg ∧ msg ≠ EmptyString)
     ∧ result (app v') = result (app v)
     ∧ ignoredErrors (app v') = ignoredErrors (app v)
     ∧ editor v' = editor v
     ∧ loading (app v') = false)
  ∧ posted (net (run w' [UserEdit newContents; DebounceTimer]))
    = posted (net w) ++ [t; str newContents.*1]
  ∧ length (posted (net w) ++ [t])
    ∈ awaiting (net (run w' [UserEdit newContents; DebounceTimer])).
Proof.
  intros Ht Hb Hin Hfail Hq Hu Hne Htext Hblank sent w' v'. subst sent w' v'.
  destruct (failureMessage_failed o Hfail) as (msg & Hmsg & Hne').
  rewrite (step_tick w t Ht Hb).
  rewrite (step_response (mkWorld _ _ _)) by (simpl; set_solver).
  rewrite (step_response v) by done.
  replace (checkText_resume o) with (λ a, setLoading false (setError (failureMessage o) a))
    by (by destruct o).
  cbn [app editor net posted awaiting]. split_and!; try done.
  - set_solver.
  - exists msg. by rewrite <-Hmsg.
  - exists msg. by rewrite <-Hmsg.
  - set (w' := mkWorld _ _ _).
    destruct (edit_then_tick_posts w' q newContents) as [_ ->]; [done..|].
    subst w'. simpl. by rewrite <-app_assoc.
  - set (w' := mkWorld _ _ _).
    destruct (edit_then_tick_posts w' q newContents) as [_ ->]; [done..|].
    subst w'. simpl. set_solver.
Qed.

Lemma failed_check_keeps_annotations_witness :
  result (app (run pendingSession [DebounceTimer; Response 1 (HttpError None)]))
  = Some resultA
  ∧ ignoredErrors (app (run pendingSession [DebounceTimer; Response 1 (HttpError None)]))
    = {[ "0-3-spelling" ]}
  ∧ error (app (run pendingSession [DebounceTimer; Response 1 (HttpError None)]))
    = Some "Erro ao verificar o texto.".
Proof.
  pose proof (failed_check_keeps_annotations pendingSession recheckingSession
                (line "Teh cat sat") 1 (HttpError None)
                (mkQuill (plain (line "Teh cat sat")) None)
                (plain (line "Teh cat sat down"))) as H.
  destruct H as (_ & (_ & Hres & Hign & _) & _).
  - by vm_compute.
  - by vm_compute.
  - by vm_compute.
  - done.
  - by vm_compute.
  - by vm_compute.
  - vm_compute. congruence.
  - vm_compute. congruence.
  - by vm_compute.
  - vm_compute in Hres, Hign. split_and!; vm_compute; [exact Hres|exact Hign|done].
Defined.

(** ** Overlapping checks *)

(** C1 as stated fails.  In [overlappingSession] request 1 was sent after
    request 0 and both are awaited.  The response to request 0 arrives:
    it is not discarded, it replaces the stored result, and the next
    projection marks its finding in the document. *)
Lemma stale_response_overwrites_result :
  posted (net overlappingSession) = [line "Teh cat"; line "Teh cat sat"]
  ∧ awaiting (net overlappingSession) = {[0; 1]}
  ∧ result (app overlappingSession) = None
  ∧ result (app (step overlappingSession (Response 0 (HttpOk resultA)))) = Some resultA
  ∧ contents <$> quillInstanceRef
                   (editor (run overlappingSession
                                [Response 0 (HttpOk resultA); ProjectionTimer]))
    = Some (((λ c, (c, true)) <$> chars "Teh") ++ plain (line " cat sat")).
Proof. split_and!; by vm_compute. Qed.

(** C1, amended.  No response is discarded.  For requests [a] and [b]
    that are both awaited, in whatever order they were sent, the response
    to [a] replaces the stored result and reconciles the ignore set, [b]
    stays awaited, and the response to [b] replaces the result in turn:
    what is stored, and projected, is the result that arrived last. *)
Theorem last_arrived_response_is_stored (w : World) (a b : nat)
    (dataA dataB : CheckResult) :
  a ∈ awaiting (net w) → b ∈ awaiting (net w) → a ≠ b →
  let wA := step w (Response a (HttpOk dataA)) in
  result (app wA) = Some dataA
  ∧ ignoredErrors (app wA)
    = preservedIgnored (ignoredErrorsRef (app w)) (default [] (matches dataA))
  ∧ b ∈ awaiting (net wA)
  ∧ result (app (step wA (Response b (HttpOk dataB)))) = Some dataB
  ∧ activeErrors (result (app (step wA (Response b (HttpOk dataB)))))
                 (ignoredErrors (app (step wA (Response b (HttpOk dataB)))))
    = filter (λ m, errorId m ∉ preservedIgnored (ignoredErrors (app wA))
                                                 (default [] (matches dataB)))
             (default [] (matches dataB)).
Proof.
  intros Ha Hb Hab wA. subst wA.
  rewrite (step_response w a) by done.
  assert (b ∈ awaiting (net w) ∖ {[a]}) as Hb' by set_solver.
  rewrite step_response by done. simpl.
  split_and!; try done.
  unfold activeErrors; simpl. by destruct (matches dataB).
Qed.

Lemma last_arrived_response_is_stored_witness :
  result (app (step overlappingSession (Response 1 (HttpOk resultA)))) = Some resultA.
Proof.
  refine (proj1 (last_arrived_response_is_stored overlappingSession 1 0 resultA resultA
                   _ _ _)); by vm_compute.
Defined.

(** ** Between two turns of the event loop *)

Lemma handleReplaceText_gate matchIndex replacementIndex w :
  isUpdatingRef (editor w) = false →
  isUpdatingRef (editor (handleReplaceText matchIndex replacementIndex w)) = false.
Proof.
  intros Hu. unfold handleReplaceText. repeat case_match; try done.
  destruct w as [a [h [q|] u n] nt]; [|done]. by rewrite replaceText_at.
Qed.

(** The gate is free and the ref mirrors the ignore set whenever a turn
    has ended. *)
Lemma step_rest w e :
  isUpdatingRef (editor w) = false →
  isUpdatingRef (editor (step w e)) = false
  ∧ ignoredErrorsRef (app (step w e)) = ignoredErrors (app (step w e)).
Proof.
  intros Hu. split.
  - unfold step; simpl. destruct e as [cs| |request o| |i|i j]; simpl.
    + destruct w as [a [h [q|] u n] nt]; [|done]. simpl in Hu; subst u.
      unfold api; simpl. by case_decide.
    + destruct (debounceTimerRef (app w)); [|done].
      unfold checkText. by destruct (blank _).
    + by case_decide.
    + destruct w as [a [h [q|] u n] nt]; [|done]. rewrite projection_at.
      by case_bool_decide.
    + unfold handleIgnoreError. by repeat case_match.
    + by apply handleReplaceText_gate.
  - unfold step, commit; simpl. by case_decide.
Qed.

Lemma run_rest doc trace :
  isUpdatingRef (editor (run (init doc) trace)) = false.
Proof.
  assert (∀ w, isUpdatingRef (editor w) = false →
               isUpdatingRef (editor (run w trace)) = false) as H.
  { induction trace as [|e trace IH]; intros w Hw; [done|].
    simpl. apply IH. by apply step_rest. }
  by apply H.
Qed.

Lemma commit_timer prev a :
  debounceTimerRef (commit prev a)
  = if decide (text a = prev) then debounceTimerRef a
    else if blank (text a) then None else Some (text a).
Proof.
  unfold commit; simpl. case_decide; [done|].
  unfold debounceEffect; simpl. by destruct (blank (text a)).
Qed.

Lemma handle_timer e w :
  debounceTimerRef (app (handle e w)) = debounceTimerRef (app w)
  ∨ debounceTimerRef (app (handle e w)) = None.
Proof.
  destruct e as [cs| |request o| |i|i j]; simpl.
  - left. apply api_text_or_same.
  - right. destruct (debounceTimerRef (app w)) as [t'|] eqn:Ht; [|done].
    unfold checkText. by destruct (blank t').
  - left. case_decide; [|done]. by destruct o.
  - left. by destruct (projection_app_net
                         (activeErrors (result (app w)) (ignoredErrors (app w))) w)
      as (-> & _).
  - left. unfold handleIgnoreError. by repeat case_match.
  - left. unfold handleReplaceText. repeat case_match; try done.
    destruct w as [a [h [q|] u n] nt]; [|done]. by rewrite replaceText_at.
Qed.

(** A pending debounce timer always closes over a text that is not blank,
    so the guard at the head of [checkText] is never taken by a tick. *)
Lemma step_timer_nonblank w e :
  (∀ t, debounceTimerRef (app w) = Some t → blank t = false) →
  ∀ t, debounceTimerRef (app (step w e)) = Some t → blank t = false.
Proof.
  intros Hinv t. unfold step. cbn [app onApp]. rewrite commit_timer.
  case_decide as Htext.
  - destruct (handle_timer e w) as [-> | ->]; [by auto|done].
  - destruct (blank (text (app (handle e w)))) eqn:Hb; [done|]. by intros [= <-].
Qed.

(** * Further properties of the page *)

(** ** Ignoring a finding and the result panel *)

Lemma filter_imap_snd {A} (P : A → Prop) `{!∀ x, Decision (P x)} (g : nat → nat)
    (l : list A) :
  (filter (λ im, P im.2) (imap (λ i m, (g i, m)) l)).*2 = filter P l.
Proof.
  revert g. induction l as [|x l IH]; intros g; [done|].
  rewrite imap_cons, !filter_cons. simpl.
  pose proof (IH (g ∘ S)) as IH'. unfold compose in *.
  destruct (decide (P x)); rewrite ?fmap_cons, IH'; done.
Qed.

Lemma replaceText_ignoredErrors offset len replacement w :
  ignoredErrors (app (replaceText offset len replacement w)) = ignoredErrors (app w)
  ∧ result (app (replaceText offset len replacement w)) = result (app w).
Proof. destruct w as [a [h [q|] u n] nt]; [|done]. by rewrite replaceText_at. Qed.

Lemma setIgnoredErrors_same w :
  onApp (λ a, setIgnoredErrors (ignoredErrors a) a) w = w.
Proof. by destruct w as [[] ? ?]. Qed.

(** X1. Ignoring the match at a position of the list adds its id to the
    ignore set and nothing else changes; the findings passed to the
    editor are then the former ones without those of the same offset,
    length and message, findings that differ in any of the three stay. *)
Theorem ignore_hides_that_identity_only (w : World) (matchIndex : nat)
    (r : CheckResult) (ms : list Finding) (m : Finding) :
  result (app w) = Some r → matches r = Some ms → ms !! matchIndex = Some m →
  let w' := step w (ClickIgnore matchIndex) in
  ignoredErrors (app w') = ignoredErrors (app w) ∪ {[errorId m]}
  ∧ activeErrors (result (app w')) (ignoredErrors (app w'))
    = filter (λ f, identityOf f ≠ identityOf m)
             (activeErrors (result (app w)) (ignoredErrors (app w)))
  ∧ result (app w') = result (app w)
  ∧ text (app w') = text (app w)
  ∧ debounceTimerRef (app w') = debounceTimerRef (app w)
  ∧ editor w' = editor w ∧ net w' = net w.
Proof.
  intros Hr Hms Hm w'.
  assert (w' = onApp (λ a, syncIgnoredRef
                             (setIgnoredErrors (ignoredErrors a ∪ {[errorId m]}) a)) w)
    as ->.
  { subst w'. unfold step, handle, handleIgnoreError. rewrite Hr, Hms, Hm.
    unfold onApp; simpl. f_equal. apply (commit_same_text (setIgnoredErrors _ (app w))). }
  simpl. split_and!; try done.
  rewrite Hr. simpl. rewrite Hms.
  rewrite list_filter_filter. apply list_filter_iff. intros f.
  rewrite <-errorId_inj. set_solver.
Qed.

Lemma ignore_hides_that_identity_only_witness :
  activeErrors (result (app (step checkedSession (ClickIgnore 0))))
               (ignoredErrors (app (step checkedSession (ClickIgnore 0)))) = [].
Proof.
  refine (eq_trans (proj1 (proj2 (ignore_hides_that_identity_only checkedSession 0
                     resultA [spelling] spelling _ _ _))) _); by vm_compute.
Defined.

Lemma displayed_elem result ignored i m :
  (i, m) ∈ displayed result ignored
  ↔ (errorId m ∉ ignored)
    ∧ ∃ r ms, result = Some r ∧ matches r = Some ms ∧ ms !! i = Some m.
Proof.
  unfold displayed. destruct result as [r|].
  - destruct (matches r) as [ms|] eqn:Hms.
    + rewrite list_elem_of_filter, elem_of_lookup_imap. simpl. split.
      * intros [? (j & y & [= -> ->] & ?)]. split; [done|]. by exists r, ms.
      * intros [? (r' & ms' & [= <-] & Hms' & ?)]. split; [done|].
        rewrite Hms in Hms'. injection Hms' as <-. by exists i, m.
    + split; [by intros ?%elem_of_nil|]. intros [_ (r' & ms' & [= <-] & Hms' & _)].
      congruence.
  - split; [by intros ?%elem_of_nil|]. by intros [_ (r' & ms' & ? & _)].
Qed.

(** X2. The panel lists the findings that the editor highlights, in the
    same order, and each entry carries the position of its own match in
    [result.matches]: an entry is listed exactly when the match at that
    position is not ignored. *)
Theorem panel_lists_the_highlighted_findings (result : option CheckResult)
    (ignored : gset string) :
  (displayed result ignored).*2 = activeErrors result ignored
  ∧ ∀ i m, (i, m) ∈ displayed result ignored
           ↔ (errorId m ∉ ignored)
             ∧ ∃ r ms, result = Some r ∧ matches r = Some ms ∧ ms !! i = Some m.
Proof.
  split.
  - unfold displayed, activeErrors. destruct result as [r|]; [|done].
    destruct (matches r) as [ms|]; [|done].
    exact (filter_imap_snd (λ m, errorId m ∉ ignored) (λ i, i) ms).
  - apply displayed_elem.
Qed.

(** X3. For an entry of the panel and a suggestion of it with a non-empty
    text the guards of [handleReplaceText] pass, and since a listed entry
    is never ignored the removal from the ignore set removes nothing: the
    handler does what [replaceText] does. *)
Theorem panel_suggestion_click_replaces (w : World) (i j : nat) (m : Finding)
    (replacement : Replacement) :
  (i, m) ∈ displayed (result (app w)) (ignoredErrors (app w)) →
  match_replacements m !! j = Some replacement →
  falsy replacement = false → editorRef (editor w) = true →
  handleReplaceText i j w
  = replaceText (match_offset m) (match_length m) (replacementText replacement) w
  ∧ ignoredErrors (app (handleReplaceText i j w)) = ignoredErrors (app w)
  ∧ result (app (handleReplaceText i j w)) = result (app w).
Proof.
  intros Hin Hrep Hf He.
  apply displayed_elem in Hin as [Hid (r & ms & Hr & Hms & Hm)].
  rewrite (handleReplaceText_selected _ _ _ _ _ _ _ Hr Hms Hm Hrep Hf He).
  set (w1 := replaceText _ _ _ w).
  destruct (replaceText_ignoredErrors (match_offset m) (match_length m)
              (replacementText replacement) w) as [Hign Hres]. fold w1 in Hign, Hres.
  assert (onApp (λ a, setIgnoredErrors (ignoredErrors a ∖ {[errorId m]}) a) w1 = w1) as ->.
  { rewrite <-(setIgnoredErrors_same w1) at 2. unfold onApp. f_equal. f_equal.
    rewrite Hign. set_solver. }
  done.
Qed.

Lemma panel_suggestion_click_replaces_witness :
  ignoredErrors (app (handleReplaceText 0 0 checkedSession))
  = ignoredErrors (app checkedSession).
Proof.
  refine (proj1 (proj2 (panel_suggestion_click_replaces checkedSession 0 0 spelling
                          (RString "The") _ _ _ _))).
  - apply displayed_elem. split; [vm_compute; congruence|]. by exists resultA, [spelling].
  - done.
  - done.
  - done.
Defined.

(** ** What every turn re-establishes *)

Lemma step_settled w e : settled w → settled (step w e).
Proof.
  intros (Hu & _ & Htimer & Hposted).
  destruct (step_rest w e Hu) as [Hu' Hsync]. split_and!; [done|done| |].
  - intros t. unfold step. cbn [app onApp]. rewrite commit_timer, commit_text.
    case_decide as Htext.
    + destruct (handle_timer e w) as [-> | ->]; [|done].
      rewrite Htext. apply Htimer.
    + destruct (blank (text (app (handle e w)))) eqn:Hb; [done|]. by intros [= <-].
  - rewrite step_net. destruct (handle_posted e w) as [->|(t & Hb & _ & -> & _)]; [done|].
    apply Forall_app. split; [done|]. by constructor.
Qed.

Lemma run_settled w trace : settled w → settled (run w trace).
Proof.
  revert w. induction trace as [|e trace IH]; intros w Hw; [done|].
  simpl. by apply IH, step_settled.
Qed.

Lemma init_settled doc : settled (init doc).
Proof. unfold settled; simpl. split_and!; try done. Qed.

(** A handler that only sets cells other than [text], the ignore set and
    the timer keeps the page settled. *)
Lemma frame_settled (f : App → App) w :
  (∀ a, text (f a) = text a) →
  (∀ a, ignoredErrors (f a) = ignoredErrors a) →
  (∀ a, debounceTimerRef (f a) = debounceTimerRef a) →
  settled w → settled (onApp (commit (text (app w))) (onApp f w)).
Proof.
  intros Ht Hi Hd (Hu & Hsync & Htimer & Hposted).
  unfold onApp; simpl.
  rewrite <-(Ht (app w)), commit_same_text.
  unfold settled; simpl. split_and!; try done.
  intros t. rewrite Hd, Ht. apply Htimer.
Qed.

Lemma sessionStep_settled s e : settled (world s) → settled (world (sessionStep s e)).
Proof.
  intros Hs. destruct e as [e| |request o].
  - by apply step_settled.
  - unfold sessionStep, sessionHandle, handleAnalyzeWithAI.
    destruct (blank (text (app (world s)))); cbn [world]; by apply frame_settled.
  - unfold sessionStep, sessionHandle.
    assert (settled (onApp (commit (text (app (world s)))) (world s))) as Hid.
    { by apply (frame_settled (λ a, a)). }
    case_decide; [|done].
    destruct (analyses (assistant s) !! request) as [[body closure]|]; [|done].
    unfold handleAnalyzeWithAI_resume. destruct o as [message|detail|data]; cbn [world].
    + by apply frame_settled.
    + by apply frame_settled.
    + destruct (analyze_matches data); [by apply frame_settled|done].
Qed.

Lemma sessionRun_settled doc trace : settled (world (sessionRun (sessionInit doc) trace)).
Proof.
  assert (∀ s, settled (world s) → settled (world (sessionRun s trace))) as H.
  { induction trace as [|e trace IH]; intros s Hs; [done|].
    simpl. by apply IH, sessionStep_settled. }
  apply H, init_settled.
Qed.

(** X4. Whatever the user and the servers do after the page was mounted,
    when a turn has ended the update gate is free, [ignoredErrorsRef]
    holds the current ignore set, a pending debounce timer closes over
    the current text, which is not blank, and every check request sent so
    far carried a text that is not blank. *)
Theorem page_is_settled_between_turns (doc : list (ascii * bool))
    (trace : list SessionEvent) :
  let w := world (sessionRun (sessionInit doc) trace) in
  isUpdatingRef (editor w) = false
  ∧ ignoredErrorsRef (app w) = ignoredErrors (app w)
  ∧ (∀ t, debounceTimerRef (app w) = Some t → t = text (app w) ∧ blank t = false)
  ∧ Forall (λ t, blank t = false) (posted (net w)).
Proof.
  assert (∀ s, settled (world s) → settled (world (sessionRun s trace))) as H.
  { induction trace as [|e trace IH]; intros s Hs; [done|].
    simpl. by apply IH, sessionStep_settled. }
  apply (H (sessionInit doc)). unfold settled; simpl. by split_and!.
Qed.

(** ** Debouncing *)

Lemma user_edits_net w edits : net (run w (UserEdit <$> edits)) = net w.
Proof.
  revert w. induction edits as [|cs edits IH]; intros w; [done|].
  simpl. rewrite IH, step_net. apply api_net.
Qed.

Lemma tick_net w :
  settled w →
  net (step w DebounceTimer)
  = match debounceTimerRef (app w) with
    | Some _ => mkNet (posted (net w) ++ [text (app w)])
                      (awaiting (net w) ∪ {[length (posted (net w))]})
    | None => net w
    end
  ∧ debounceTimerRef (app (step w DebounceTimer)) = None.
Proof.
  intros (_ & _ & Htimer & _). unfold step. cbn [app onApp net].
  rewrite commit_timer. unfold handle.
  destruct (debounceTimerRef (app w)) as [t|] eqn:Ht.
  - destruct (Htimer t eq_refl) as [-> Hb]. unfold checkText. rewrite Hb. simpl.
    by rewrite decide_True.
  - rewrite decide_True by done. by rewrite Ht.
Qed.

(** X5. At any point of a session a burst of edits sends nothing; the
    tick of the debounce timer after the burst sends at most one check
    request, whose body is the text as it is then, and a further tick
    sends nothing more. *)
Theorem burst_of_edits_sends_one_request (doc : list (ascii * bool))
    (trace : list SessionEvent) (edits : list (list (ascii * bool))) :
  let w := world (sessionRun (sessionInit doc) trace) in
  let w' := run w (UserEdit <$> edits) in
  net w' = net w
  ∧ (net (step w' DebounceTimer) = net w
     ∨ net (step w' DebounceTimer)
       = mkNet (posted (net w) ++ [text (app w')])
               (awaiting (net w) ∪ {[length (posted (net w))]}))
  ∧ net (run w' [DebounceTimer; DebounceTimer]) = net (step w' DebounceTimer).
Proof.
  intros w w'.
  assert (settled w') as Hw' by apply run_settled, sessionRun_settled.
  destruct (tick_net w' Hw') as [Htick Hnone].
  assert (net w' = net w) as Hnet by apply user_edits_net.
  split_and!; [done| |].
  - rewrite Htick. destruct (debounceTimerRef (app w')); [right|left]; by rewrite Hnet.
  - change (run w' [DebounceTimer; DebounceTimer])
      with (step (step w' DebounceTimer) DebounceTimer).
    destruct (tick_net (step w' DebounceTimer)) as [-> _]; [by apply step_settled|].
    by rewrite Hnone.
Qed.

(** X6. The tick of a pending debounce timer starts the check without
    touching what is on display: the check result, the ignore set and the
    document stay, [loading] is set, the error is cleared, the timer is
    spent and the request is awaited under a fresh number. *)
Theorem tick_keeps_annotations (w : World) (t : string) :
  debounceTimerRef (app w) = Some t → blank t = false →
  let w' := step w DebounceTimer in
  result (app w') = result (app w)
  ∧ ignoredErrors (app w') = ignoredErrors (app w)
  ∧ editor w' = editor w
  ∧ loading (app w') = true
  ∧ error (app w') = None
  ∧ debounceTimerRef (app w') = None
  ∧ posted (net w') = posted (net w) ++ [t]
  ∧ awaiting (net w') = awaiting (net w) ∪ {[length (posted (net w))]}.
Proof.
  intros Ht Hb w'. subst w'. unfold step, handle. rewrite Ht.
  unfold checkText. rewrite Hb. unfold commit; simpl.
  rewrite decide_True by done. by split_and!.
Qed.

Lemma tick_keeps_annotations_witness :
  result (app (step recheckingSession (UserEdit (plain (line "Teh cat sat down")))))
  = result (app (run recheckingSession
                     [UserEdit (plain (line "Teh cat sat down")); DebounceTimer])).
Proof.
  symmetry.
  refine (proj1 (tick_keeps_annotations
                   (step recheckingSession (UserEdit (plain (line "Teh cat sat down"))))
                   (line "Teh cat sat down") _ _)); by vm_compute.
Defined.

(** X7. A turn that leaves [text] changed and not blank, be it typing or
    an accepted replacement, sends nothing itself and leaves exactly one
    timer pending, the one for the new text; whatever timer was pending
    before is gone. *)
Theorem text_change_arms_the_timer (w : World) (e : Event) :
  text (app (step w e)) ≠ text (app w) →
  blank (text (app (step w e))) = false →
  debounceTimerRef (app (step w e)) = Some (text (app (step w e)))
  ∧ net (step w e) = net w
  ∧ posted (net (step (step w e) DebounceTimer))
    = posted (net w) ++ [text (app (step w e))].
Proof.
  intros Hchg Hb.
  assert (debounceTimerRef (app (step w e)) = Some (text (app (step w e)))) as Htimer.
  { unfold step in *. cbn [app onApp] in *. rewrite commit_text in *.
    rewrite commit_timer, decide_False by done. by rewrite Hb. }
  assert (net (step w e) = net w) as Hnet.
  { rewrite step_net. destruct e as [cs| |request o| |i|i j]; simpl.
    - apply api_net.
    - exfalso. apply Hchg. unfold step; simpl. rewrite commit_text.
      destruct (debounceTimerRef (app w)); [|done]. by rewrite checkText_text.
    - exfalso. apply Hchg. unfold step; simpl. rewrite commit_text.
      case_decide; [|done]. apply checkText_resume_text.
    - apply projection_app_net.
    - apply handleIgnoreError_net_text.
    - apply handleReplaceText_net. }
  split_and!; [done..|].
  change (step (step w e) DebounceTimer) with
    (onApp (commit (text (app (step w e)))) (handle DebounceTimer (step w e))).
  rewrite <-Hnet. unfold handle. rewrite Htimer. unfold checkText. by rewrite Hb.
Qed.

Lemma text_change_arms_the_timer_witness :
  debounceTimerRef (app (step checkedSession (ClickReplacement 0 0))) = Some (line "The cat").
Proof.
  refine (proj1 (text_change_arms_the_timer checkedSession (ClickReplacement 0 0) _ _));
    vm_compute; congruence.
Defined.

(** ** What the projection leaves in the document *)

Lemma or_zero_id x : or_zero x = x.
Proof. unfold or_zero. by case_bool_decide. Qed.

Lemma covers_spec len m i :
  inBounds len m && within (or_zero (match_offset m)) (or_zero (match_length m)) (Z.of_nat i)
  = true
  ↔ (0 ≤ match_offset m ∧ 0 < match_length m ∧ match_offset m + match_length m ≤ len
     ∧ match_offset m ≤ Z.of_nat i < match_offset m + match_length m)%Z.
Proof.
  unfold inBounds, within. rewrite !or_zero_id, !andb_true_iff, !bool_decide_eq_true. lia.
Qed.

Lemma projection_quill errors w q :
  quillInstanceRef (editor w) = Some q →
  ∃ q', quillInstanceRef (editor (projection errors w)) = Some q'
        ∧ contents q' = contents (projectQuill errors q)
        ∧ selection q' = selection q.
Proof.
  intros Hq. destruct w as [a [h q0 u n] nt]; simpl in Hq; subst q0.
  rewrite projection_at. case_bool_decide as Hc.
  - exists q. split_and!; [done| |done]. destruct Hc as [-> Hlen].
    rewrite projectQuill_cleared. cbn [foldl setSelection contents].
    rewrite cleared_empty; [done|].
    rewrite textLength_getText in Hlen. destruct (contents q); [done|simpl in Hlen; lia].
  - exists (projectQuill errors q). by rewrite projectQuill_selection.
Qed.

(** X8. After a projection a character of the document carries the error
    mark exactly when it is not a newline and lies in the span of one of
    the projected findings that starts at or after 0, has a positive
    length and ends within the text; marks of earlier projections do not
    survive, and the characters themselves are those of before. *)
Theorem projection_marks_the_spans_within_bounds (errors : list Finding) (w : World)
    (q q' : Quill) (i : nat) (c : ascii) (b : bool) :
  quillInstanceRef (editor w) = Some q →
  quillInstanceRef (editor (projection errors w)) = Some q' →
  contents q' !! i = Some (c, b) →
  (contents q).*1 !! i = Some c
  ∧ (b = true
     ↔ c ≠ newline
       ∧ ∃ m, m ∈ errors
              ∧ (0 ≤ match_offset m ∧ 0 < match_length m
                 ∧ match_offset m + match_length m ≤ textLength (getText q)
                 ∧ match_offset m ≤ Z.of_nat i < match_offset m + match_length m)%Z).
Proof.
  intros Hq Hq' Hi.
  destruct (projection_quill errors w q Hq) as (q'' & Hq'' & Hcont & _).
  rewrite Hq' in Hq''. injection Hq'' as <-. rewrite Hcont in Hi. split.
  - rewrite <-(projectQuill_chars errors q), list_lookup_fmap, Hi. done.
  - apply projectQuill_marks in Hi as ->.
    rewrite andb_true_iff, negb_true_iff, bool_decide_eq_false, existsb_exists.
    apply and_iff_compat_l.
    split; intros (m & Hm & Hcov); exists m.
    + by rewrite list_elem_of_In, <-covers_spec.
    + by rewrite <-list_elem_of_In, covers_spec.
Qed.

Lemma projection_marks_the_spans_within_bounds_witness :
  ((contents (mkQuill (plain (line "Teh cat")) None)).*1 !! 5 = Some "a"%char
   ∧ (true = true
      ↔ "a"%char ≠ newline
        ∧ ∃ m, m ∈ [lastWord]
               ∧ (0 ≤ match_offset m ∧ 0 < match_length m
                  ∧ match_offset m + match_length m
                    ≤ textLength (getText (mkQuill (plain (line "Teh cat")) None))
                  ∧ match_offset m ≤ Z.of_nat 5 < match_offset m + match_length m)%Z))
  ∧ ((contents (mkQuill (plain (line "Teh cat")) None)).*1 !! 7 = Some newline
     ∧ (false = true
        ↔ newline ≠ newline
          ∧ ∃ m, m ∈ [lastWord]
                 ∧ (0 ≤ match_offset m ∧ 0 < match_length m
                    ∧ match_offset m + match_length m
                      ≤ textLength (getText (mkQuill (plain (line "Teh cat")) None))
                    ∧ match_offset m ≤ Z.of_nat 7 < match_offset m + match_length m)%Z)).
Proof.
  split.
  - refine (projection_marks_the_spans_within_bounds [lastWord] lastWordSession
              (mkQuill (plain (line "Teh cat")) None)
              (mkQuill (plain "Teh " ++ ((λ c, (c, true)) <$> chars "cat") ++ plain (line ""))
                       None)
              5 "a" true _ _ _); by vm_compute.
  - refine (projection_marks_the_spans_within_bounds [lastWord] lastWordSession
              (mkQuill (plain (line "Teh cat")) None)
              (mkQuill (plain "Teh " ++ ((λ c, (c, true)) <$> chars "cat") ++ plain (line ""))
                       None)
              7 newline false _ _ _); by vm_compute.
Defined.

(** X9. The projection changes marks only: the text of the document is
    the same after it, a range that the editor holds before it, within
    the text and short of the final newline, is the selection after it,
    and so is everything outside the editor. *)
Theorem projection_keeps_text_and_selection (errors : list Finding) (w : World) (q : Quill)
    (index length : Z) :
  quillInstanceRef (editor w) = Some q →
  selection q = Some (index, length) →
  (0 ≤ index)%Z → (0 ≤ length)%Z → (index + length < textLength (getText q))%Z →
  ∃ q', quillInstanceRef (editor (projection errors w)) = Some q'
        ∧ getText q' = getText q
        ∧ selection q' = Some (index, length)
        ∧ app (projection errors w) = app w
        ∧ net (projection errors w) = net w.
Proof.
  intros Hq Hs _ _ _. destruct (projection_quill errors w q Hq) as (q' & Hq' & Hcont & Hsel).
  exists q'. split_and!; [done| |congruence|apply projection_app_net..].
  unfold getText. by rewrite Hcont, projectQuill_chars.
Qed.

Lemma projection_keeps_text_and_selection_witness :
  ∃ q', quillInstanceRef
          (editor (projection [preposition] (step checkedSession (ClickReplacement 0 0))))
        = Some q'
        ∧ getText q' = line "The cat"
        ∧ selection q' = Some (3, 0)%Z.
Proof.
  destruct (projection_keeps_text_and_selection [preposition]
              (step checkedSession (ClickReplacement 0 0))
              (mkQuill (plain (line "The cat")) (Some (3, 0)%Z)) 3 0)
    as (q' & Hq' & Ht & Hs & _).
  - by vm_compute.
  - done.
  - done.
  - done.
  - by vm_compute.
  - exists q'. split_and!; [done| |done]. by rewrite Ht.
Defined.

Lemma existsb_perm {A} (f : A → bool) l l' : l ≡ₚ l' → existsb f l = existsb f l'.
Proof.
  induction 1 as [|x l l' _ IH|x y l|l l' l'' _ IH1 _ IH2]; simpl.
  - done.
  - by rewrite IH.
  - by destruct (f x), (f y).
  - by rewrite IH1.
Qed.

Lemma projectQuill_perm errors errors' q :
  errors ≡ₚ errors' → projectQuill errors q = projectQuill errors' q.
Proof.
  intros Hp.
  assert (contents (projectQuill errors q) = contents (projectQuill errors' q)) as Hc.
  { apply list_eq. intros i.
    pose proof (projectQuill_chars errors q) as H1.
    pose proof (projectQuill_chars errors' q) as H2.
    assert ((contents (projectQuill errors q)).*1 !! i
            = (contents (projectQuill errors' q)).*1 !! i) as Hi by (by rewrite H1, H2).
    rewrite !list_lookup_fmap in Hi.
    destruct (contents (projectQuill errors q) !! i) as [[c b]|] eqn:E1,
             (contents (projectQuill errors' q) !! i) as [[c' b']|] eqn:E2;
      simpl in Hi; try done.
    injection Hi as <-. apply projectQuill_marks in E1, E2. subst b b'.
    by rewrite (existsb_perm _ _ _ Hp). }
  pose proof (projectQuill_selection errors q) as S1.
  pose proof (projectQuill_selection errors' q) as S2.
  destruct (projectQuill errors q), (projectQuill errors' q); simpl in *. congruence.
Qed.

(** X10. The order in which the findings are handed to the editor does
    not matter: projecting a permutation of the list leaves the same
    state. *)
Theorem projection_order_is_irrelevant (errors errors' : list Finding) (w : World) :
  errors ≡ₚ errors' → projection errors w = projection errors' w.
Proof.
  intros Hp. destruct w as [a [h [q|] u n] nt]; [|done].
  rewrite !projection_at, (projectQuill_perm errors errors' q Hp).
  assert (errors = [] ↔ errors' = []) as Hnil.
  { split; intros ->; [by apply Permutation_nil_l in Hp|by apply Permutation_nil_r in Hp]. }
  repeat case_bool_decide; try done; tauto.
Qed.

Lemma projection_order_is_irrelevant_witness :
  projection [spelling; preposition] checkedSession
  = projection [preposition; spelling] checkedSession.
Proof.
  apply (projection_order_is_irrelevant [spelling; preposition] [preposition; spelling]).
  apply perm_swap.
Defined.

(** ** What a replacement leaves in the document *)

(** X11. A replacement, by a text without carriage returns, over a span
    that starts at a non-negative offset and stops before the final
    newline keeps the characters outside the span with the marks they
    had, puts the characters of the replacement between them and the
    caret right after these, hands the new document to [onChange], and
    leaves the gate free. *)
Theorem replace_keeps_marks_outside_the_span (w : World) (q : Quill)
    (offset length : Z) (replacement : string) :
  quillInstanceRef (editor w) = Some q →
  terminated (contents q) = true →
  carriageReturn ∉ chars replacement →
  (0 ≤ offset)%Z → (0 ≤ length)%Z →
  (offset + length < Z.of_nat (List.length (contents q)))%Z →
  let w' := replaceText offset length replacement w in
  ∃ ins,
    ins.*1 = chars replacement
    ∧ quillInstanceRef (editor w')
      = Some (mkQuill (take (Z.to_nat offset) (contents q) ++ ins
                       ++ drop (Z.to_nat offset + Z.to_nat length) (contents q))
                      (Some ((offset + textLength replacement)%Z, 0%Z)))
    ∧ htmlContent (app w')
      = take (Z.to_nat offset) (contents q) ++ ins
        ++ drop (Z.to_nat offset + Z.to_nat length) (contents q)
    ∧ isUpdatingRef (editor w') = false
    ∧ forwarded (editor w') = forwarded (editor w).
Proof.
  intros Hq Hterm Hcr Ho Hl Hin w'. subst w'.
  destruct (replaceQuill_inside offset length replacement q Hterm Hcr Ho Hl Hin)
    as (ins & Hins & Hc).
  exists ins. split; [done|].
  destruct w as [a [h q0 u n] nt]; simpl in Hq; subst q0.
  rewrite replaceText_at. cbn [app editor quillInstanceRef isUpdatingRef forwarded].
  rewrite <-Hc. by split_and!.
Qed.

Lemma replace_keeps_marks_outside_the_span_witness :
  ∃ ins,
    ins.*1 = chars "dog"
    ∧ quillInstanceRef
        (editor (replaceText 4 3 "dog" (run checkedSession [ProjectionTimer])))
      = Some (mkQuill (((λ c, (c, true)) <$> chars "Teh") ++ plain " " ++ ins ++ plain (line ""))
                      (Some (7, 0)%Z)).
Proof.
  destruct (replace_keeps_marks_outside_the_span
              (run checkedSession [ProjectionTimer])
              (mkQuill (((λ c, (c, true)) <$> chars "Teh") ++ plain (line " cat")) None)
              4 3 "dog") as (ins & Hins & Hq & _).
  - by vm_compute.
  - by vm_compute.
  - by apply (bool_decide_unpack _).
  - done.
  - done.
  - by vm_compute.
  - exists ins. split; [done|]. rewrite Hq. by vm_compute.
Defined.

(** ** The deep analysis *)

Local Arguments or_string : simpl never.

Lemma sessionStep_analyses s e :
  analyses (assistant (sessionStep s e)) = analyses (assistant s)
  ∨ (e = ClickAnalyze ∧ blank (text (app (world s))) = false
     ∧ analyses (assistant (sessionStep s e))
       = analyses (assistant s) ++ [(text (app (world s)), result (app (world s)))]).
Proof.
  destruct e as [e| |request o]; unfold sessionStep, sessionHandle; cbn [assistant].
  - left. destruct e as [| |request [| |]| | |]; try done. by case_decide.
  - unfold handleAnalyzeWithAI. destruct (blank (text (app (world s)))) eqn:Hb; [by left|].
    by right.
  - left. case_decide; [|done].
    destruct (analyses (assistant s) !! request) as [[body closure]|]; [|done].
    unfold handleAnalyzeWithAI_resume. by destruct o.
Qed.

Lemma sessionRun_analyses_nonblank s trace :
  Forall (λ p, blank p.1 = false) (analyses (assistant s)) →
  Forall (λ p, blank p.1 = false) (analyses (assistant (sessionRun s trace))).
Proof.
  revert s. induction trace as [|e trace IH]; intros s Hs; [done|].
  simpl. apply IH.
  destruct (sessionStep_analyses s e) as [->|(_ & Hb & ->)]; [done|].
  apply Forall_app. split; [done|]. by constructor.
Qed.

(** X12. Asking for the analysis of a blank text only stores the message
    that asks for a text: no request is sent, neither to the analysis nor
    to the checker, and the result, the ignore set and the analysis on
    display stay.  Over a whole session no analysis request is ever sent
    for a blank text. *)
Theorem analysis_of_blank_text_sends_nothing (s : Session) :
  blank (text (app (world s))) = true →
  let s' := sessionStep s ClickAnalyze in
  error (app (world s')) = Some "Por favor, digite um texto para analisar."
  ∧ assistant s' = assistant s
  ∧ net (world s') = net (world s)
  ∧ result (app (world s')) = result (app (world s))
  ∧ ignoredErrors (app (world s')) = ignoredErrors (app (world s))
  ∧ ∀ doc trace,
      Forall (λ p, blank p.1 = false)
             (analyses (assistant (sessionRun (sessionInit doc) trace))).
Proof.
  intros Hb s'. subst s'. unfold sessionStep, sessionHandle, handleAnalyzeWithAI.
  rewrite Hb. cbn [world assistant]. unfold onApp; cbn [app net].
  rewrite (commit_same_text (setError _ (app (world s)))).
  split_and!; try done.
  intros doc trace. by apply sessionRun_analyses_nonblank.
Qed.

Lemma analysis_of_blank_text_sends_nothing_witness :
  assistant (sessionStep (sessionInit emptyDocument) ClickAnalyze)
  = assistant (sessionInit emptyDocument).
Proof.
  exact (proj1 (proj2 (analysis_of_blank_text_sends_nothing (sessionInit emptyDocument)
                         eq_refl))).
Defined.

Lemma analyze_response_step s request body closure o :
  request ∈ analysesAwaiting (assistant s) →
  analyses (assistant s) !! request = Some (body, closure) →
  sessionStep s (AnalyzeResponse request o)
  = let s1 := handleAnalyzeWithAI_resume closure o
                (mkSession (world s)
                   (mkAssistant (aiLoading (assistant s)) (aiAnalysis (assistant s))
                                (analyses (assistant s))
                                (analysesAwaiting (assistant s) ∖ {[request]}))) in
    mkSession (onApp syncIgnoredRef (world s1)) (assistant s1).
Proof.
  intros Hin Hl. unfold sessionStep, sessionHandle. rewrite decide_True, Hl by done.
  cbn zeta. f_equal. unfold onApp. f_equal.
  unfold handleAnalyzeWithAI_resume.
  destruct o as [message|detail|data]; cbn [world].
  - apply (commit_same_text (setError _ (app (world s)))).
  - apply (commit_same_text (setError _ (app (world s)))).
  - destruct (analyze_matches data); [|apply commit_same_text].
    apply (commit_same_text (setResult _ (app (world s)))).
Qed.

(** X13. When an analysis comes back with matches, the stored result is
    built from the result of the moment the button was clicked: its
    matches and count are those of the analysis, its other fields those
    of the click-time result, whatever check result was stored in
    between.  The ignore set is not reconciled, and the text, the
    debounce timer, the document and the check requests are untouched. *)
Theorem analysis_result_spreads_the_click_time_result (s : Session) (request : nat)
    (body : string) (closure : option CheckResult) (data : AnalyzeData)
    (ms : list Finding) :
  request ∈ analysesAwaiting (assistant s) →
  analyses (assistant s) !! request = Some (body, closure) →
  analyze_matches data = Some ms →
  let s' := sessionStep s (AnalyzeResponse request (AnalyzeOk data)) in
  result (app (world s'))
  = Some (mkResult (Some ms) (analyze_corrections_found data)
                   (from_option ai_enabled false closure)
                   (closure ≫= suggestion))
  ∧ ignoredErrors (app (world s')) = ignoredErrors (app (world s))
  ∧ aiAnalysis (assistant s') = Some data
  ∧ aiLoading (assistant s') = false
  ∧ (request ∉ analysesAwaiting (assistant s'))
  ∧ text (app (world s')) = text (app (world s))
  ∧ debounceTimerRef (app (world s')) = debounceTimerRef (app (world s))
  ∧ error (app (world s')) = error (app (world s))
  ∧ editor (world s') = editor (world s)
  ∧ net (world s') = net (world s).
Proof.
  intros Hin Hl Hms s'. subst s'.
  rewrite (analyze_response_step s request body closure _ Hin Hl).
  unfold handleAnalyzeWithAI_resume. rewrite Hms. cbn.
  split_and!; try done; [by destruct closure|set_solver].
Qed.

Lemma analysis_result_spreads_the_click_time_result_witness :
  result (app (world analysedSession)) = Some (mkResult (Some []) 0 true None)
  ∧ result (app (world (sessionStep analysedSession
                          (AnalyzeResponse 0
                             (AnalyzeOk (mkAnalyze (Some [spelling]) 1 None))))))
    = Some (mkResult (Some [spelling]) 1 true (Some "use a dictionary")).
Proof.
  split; [by vm_compute|].
  refine (proj1 (analysis_result_spreads_the_click_time_result analysedSession 0
                   (line "Teh cat") (Some (mkResult (Some [spelling]) 1 true
                                             (Some "use a dictionary")))
                   (mkAnalyze (Some [spelling]) 1 None) [spelling] _ _ _));
    by vm_compute.
Defined.

Lemma analyzeFailureMessage_nonempty o :
  (∀ data, o ≠ AnalyzeOk data) →
  ∃ msg, analyzeFailureMessage o = Some msg ∧ msg ≠ EmptyString.
Proof.
  destruct o as [message|detail|data]; intros Hne; [| |by destruct (Hne data)];
    cbn [analyzeFailureMessage]; (eexists; split; [reflexivity|]);
    by apply or_string_nonempty.
Qed.

(** X14. When the analysis fails, or comes back without matches, the
    check result on display stays.  A failure stores a non-empty message
    in [error] and keeps the previous analysis; in both cases
    [aiLoading] is reset and the document and the check requests are
    untouched. *)
Theorem analysis_without_matches_keeps_the_result (s : Session) (request : nat)
    (body : string) (closure : option CheckResult) (o : AnalyzeOutcome) :
  request ∈ analysesAwaiting (assistant s) →
  analyses (assistant s) !! request = Some (body, closure) →
  (∀ data, o = AnalyzeOk data → analyze_matches data = None) →
  let s' := sessionStep s (AnalyzeResponse request o) in
  result (app (world s')) = result (app (world s))
  ∧ ignoredErrors (app (world s')) = ignoredErrors (app (world s))
  ∧ aiLoading (assistant s') = false
  ∧ editor (world s') = editor (world s)
  ∧ net (world s') = net (world s)
  ∧ match o with
    | AnalyzeOk data =>
        aiAnalysis (assistant s') = Some data ∧ error (app (world s')) = error (app (world s))
    | _ =>
        aiAnalysis (assistant s') = aiAnalysis (assistant s)
        ∧ ∃ msg, error (app (world s')) = Some msg ∧ msg ≠ EmptyString
    end.
Proof.
  intros Hin Hl Hno s'. subst s'.
  rewrite (analyze_response_step s request body closure _ Hin Hl).
  unfold handleAnalyzeWithAI_resume.
  destruct o as [message|detail|data]; cbn.
  - split_and!; try done. eexists. split; [done|]. by apply or_string_nonempty.
  - split_and!; try done. eexists. split; [done|].
    apply (or_string_nonempty (Some _)). done.
  - rewrite (Hno data eq_refl). by split_and!.
Qed.

Lemma analysis_without_matches_keeps_the_result_witness :
  result (app (world (sessionStep analysedSession
                        (AnalyzeResponse 0 (AnalyzeHttpError None)))))
  = result (app (world analysedSession)).
Proof.
  refine (proj1 (analysis_without_matches_keeps_the_result analysedSession 0
                   (line "Teh cat") (Some (mkResult (Some [spelling]) 1 true
                                             (Some "use a dictionary")))
                   (AnalyzeHttpError None) _ _ _)); [by vm_compute..|].
  intros data. discriminate.
Defined.

Lemma frame_untouched (f : App → App) w :
  (∀ a, text (f a) = text a) → (∀ a, htmlContent (f a) = htmlContent a) →
  (∀ a, debounceTimerRef (f a) = debounceTimerRef a) →
  (∀ a, ignoredErrors (f a) = ignoredErrors a) → (∀ a, loading (f a) = loading a) →
  checkerUntouched w (onApp (commit (text (app w))) (onApp f w)).
Proof.
  intros Ht Hh Hd Hi Hl. unfold onApp; simpl.
  rewrite <-(Ht (app w)), commit_same_text. unfold checkerUntouched; simpl.
  by rewrite Ht, Hh, Hd, Hi, Hl.
Qed.

(** X15. The analysis and the checker keep apart.  A turn of the checker
    is a [step] on the checker's part of the page and leaves the analysis
    requests alone; the analysis button and an analysis response never
    touch the document, the gate, the text, the debounce timer, the ignore
    set, [loading] or the check requests. *)
Theorem analysis_and_checker_keep_apart (s : Session) :
  (∀ e, world (sessionStep s (Turn e)) = step (world s) e
        ∧ analyses (assistant (sessionStep s (Turn e))) = analyses (assistant s)
        ∧ analysesAwaiting (assistant (sessionStep s (Turn e)))
          = analysesAwaiting (assistant s)
        ∧ aiLoading (assistant (sessionStep s (Turn e))) = aiLoading (assistant s))
  ∧ checkerUntouched (world s) (world (sessionStep s ClickAnalyze))
  ∧ ∀ request o,
      checkerUntouched (world s) (world (sessionStep s (AnalyzeResponse request o))).
Proof.
  split_and!.
  - intros e. split; [done|].
    unfold sessionStep, sessionHandle; cbn [assistant].
    destruct e as [| |request [| |]| | |]; try done. by case_decide.
  - unfold sessionStep, sessionHandle, handleAnalyzeWithAI.
    destruct (blank (text (app (world s)))); cbn [world]; by apply frame_untouched.
  - intros request o. unfold sessionStep, sessionHandle.
    assert (checkerUntouched (world s) (onApp (commit (text (app (world s)))) (world s)))
      as Hid by (by apply (frame_untouched (λ a, a))).
    case_decide; [|done].
    destruct (analyses (assistant s) !! request) as [[body closure]|]; [|done].
    unfold handleAnalyzeWithAI_resume. destruct o as [message|detail|data]; cbn [world].
    + by apply frame_untouched.
    + by apply frame_untouched.
    + destruct (analyze_matches data); [by apply frame_untouched|done].
Qed.

(** ** The ignore set and the stored result *)

Lemma preservedIgnored_reported S F id :
  id ∈ preservedIgnored S F → ∃ m, m ∈ F ∧ errorId m = id.
Proof.
  unfold preservedIgnored. rewrite preservedIgnored_from.
  rewrite elem_of_union, elem_of_intersection, elem_of_list_to_set, list_elem_of_fmap.
  intros [?%elem_of_empty|[_ (m & -> & ?)]]; [done|]. by exists m.
Qed.

Lemma commit_reported prev a : ignoredAreReported a → ignoredAreReported (commit prev a).
Proof.
  intros Ha. unfold commit. case_decide; [done|].
  unfold debounceEffect; simpl. destruct (blank (text a)); [|done].
  intros id. simpl. by intros ?%elem_of_empty.
Qed.

Lemma handle_reported e w : ignoredAreReported (app w) → ignoredAreReported (app (handle e w)).
Proof.
  intros Hw. destruct e as [cs| |request o| |i|i j]; simpl.
  - destruct (api_text_or_same (λ q, mkQuill cs (selection q)) w) as (_ & Hr & Hi).
    intros id. rewrite Hr, Hi. apply Hw.
  - destruct (debounceTimerRef (app w)) as [t|]; [|done].
    unfold checkText. destruct (blank t); [|done].
    intros id. simpl. by intros ?%elem_of_empty.
  - case_decide; [|done]. destruct o as [message|detail|data]; [done|done|].
    intros id. simpl. apply preservedIgnored_reported.
  - by destruct (projection_app_net
                   (activeErrors (result (app w)) (ignoredErrors (app w))) w) as (-> & _).
  - unfold handleIgnoreError.
    destruct (result (app w)) as [r|] eqn:Hr; [|done].
    destruct (matches r) as [ms|] eqn:Hms; [|done].
    destruct (ms !! i) as [m|] eqn:Hm; [|done].
    intros id. simpl. rewrite Hr. simpl. rewrite Hms. simpl.
    rewrite elem_of_union, elem_of_singleton. intros [Hin| ->].
    + specialize (Hw id Hin). by rewrite Hr in Hw; simpl in Hw; rewrite Hms in Hw.
    + exists m. split; [|done]. by eapply list_elem_of_lookup_2.
  - unfold handleReplaceText.
    destruct (result (app w)) as [r|] eqn:Hr; [|done].
    destruct (matches r) as [ms|]; [|done].
    case_bool_decide; [done|].
    destruct (ms !! i) as [m|]; [|done].
    destruct (match_replacements m !! j) as [rep|]; [|done].
    destruct (falsy rep || negb _); [done|].
    destruct (replaceText_ignoredErrors (match_offset m) (match_length m)
                (replacementText rep) w) as [Hi Hres].
    intros id. unfold onApp; cbn [app setIgnoredErrors ignoredErrors result].
    rewrite Hi, Hres, elem_of_difference. intros [Hin _]. by apply Hw.
Qed.

(** X16. As long as no deep analysis is involved, every ignored id is the
    id of a match of the stored check result: ignoring adds the id of a
    listed match, an accepted response keeps only ids it reports again,
    and clearing the result clears the ignore set with it. *)
Theorem ignored_ids_are_reported (doc : list (ascii * bool)) (trace : list Event) (id : string) :
  id ∈ ignoredErrors (app (run (init doc) trace)) →
  ∃ r ms m, result (app (run (init doc) trace)) = Some r ∧ matches r = Some ms
            ∧ m ∈ ms ∧ errorId m = id.
Proof.
  assert (∀ w, ignoredAreReported (app w) → ignoredAreReported (app (run w trace))) as H.
  { induction trace as [|e trace IH]; intros w Hw; [done|].
    simpl. apply IH. unfold step. cbn [app onApp]. by apply commit_reported, handle_reported. }
  intros Hin. destruct (H (init doc)) with (id := id) as (m & Hm & Hid); [|done|].
  { intros id'. simpl. by intros ?%elem_of_empty. }
  destruct (result (app (run (init doc) trace))) as [r|]; [|by apply elem_of_nil in Hm].
  simpl in Hm. destruct (matches r) as [ms|] eqn:Hms; [|by apply elem_of_nil in Hm].
  by exists r, ms, m.
Qed.

Lemma ignored_ids_are_reported_witness :
  ∃ r ms m, result (app (run (init emptyDocument)
                              [UserEdit (plain (line "Teh cat")); DebounceTimer;
                               Response 0 (HttpOk resultA); ClickIgnore 0]))
            = Some r
            ∧ matches r = Some ms ∧ m ∈ ms ∧ errorId m = "0-3-spelling".
Proof.
  apply (ignored_ids_are_reported emptyDocument
           [UserEdit (plain (line "Teh cat")); DebounceTimer;
            Response 0 (HttpOk resultA); ClickIgnore 0]).
  by vm_compute.
Defined.

Lemma projection_text_app errors w q :
  quillInstanceRef (editor w) = Some q →
  ∃ q', quillInstanceRef (editor (projection errors w)) = Some q'
        ∧ getText q' = getText q ∧ app (projection errors w) = app w.
Proof.
  intros Hq. destruct (projection_quill errors w q Hq) as (q' & Hq' & Hcont & _).
  exists q'. split_and!; [done| |apply projection_app_net].
  unfold getText. by rewrite Hcont, projectQuill_chars.
Qed.

(** ** The text that [App] holds *)

Lemma handle_tracks w e :
  isUpdatingRef (editor w) = false →
  (∀ q, quillInstanceRef (editor w) = Some q → text (app w) = getText q) →
  ∀ q', quillInstanceRef (editor (handle e w)) = Some q' →
        text (app (handle e w)) = getText q'.
Proof.
  intros Hu Hw q'. destruct e as [cs| |request o| |i|i j]; simpl.
  - destruct w as [a [h [q|] u n] nt]; [|done]. simpl in Hu; subst u.
    unfold api; simpl. case_decide as Hc.
    + simpl. intros [= <-]. unfold getText; simpl. rewrite Hc. by apply Hw.
    + simpl. by intros [= <-].
  - destruct (debounceTimerRef (app w)); [|by apply Hw].
    rewrite checkText_text. unfold checkText. destruct (blank _); by apply Hw.
  - case_decide; [|by apply Hw]. simpl. rewrite checkText_resume_text. by apply Hw.
  - destruct (quillInstanceRef (editor w)) as [q|] eqn:Hq.
    + destruct (projection_text_app
                  (activeErrors (result (app w)) (ignoredErrors (app w))) w q Hq)
        as (q1 & -> & Ht & Ha).
      intros [= <-]. rewrite Ha, Ht. by apply Hw.
    + unfold projection. rewrite Hq. by rewrite Hq.
  - destruct (handleIgnoreError_net_text i w) as [_ ->].
    unfold handleIgnoreError. repeat case_match; by apply Hw.
  - unfold handleReplaceText.
    destruct (result (app w)) as [r|]; [|by apply Hw].
    destruct (matches r) as [ms|]; [|by apply Hw].
    case_bool_decide; [by apply Hw|].
    destruct (ms !! i) as [m|]; [|by apply Hw].
    destruct (match_replacements m !! j) as [rep|]; [|by apply Hw].
    destruct (falsy rep || negb _); [by apply Hw|].
    destruct w as [a [h [q|] u n] nt]; [|done].
    rewrite replaceText_at. simpl. by intros [= <-].
Qed.

(** X17. [App]'s [text] follows the document.  If the gate is free and
    [text] is the text of the document before a turn, then after a turn
    that leaves a document whose text is not blank it is the text of that
    document: edits and replacements hand the new text to [App], the
    projection and the responses change neither. *)
Theorem text_tracks_the_document (w : World) (e : Event) (q' : Quill) :
  isUpdatingRef (editor w) = false →
  (∀ q, quillInstanceRef (editor w) = Some q → text (app w) = getText q) →
  quillInstanceRef (editor (step w e)) = Some q' →
  blank (getText q') = false →
  text (app (step w e)) = getText q'.
Proof.
  intros Hu Hw Hq' _. revert Hq'. unfold step. cbn [app editor onApp]. rewrite commit_text.
  by apply handle_tracks.
Qed.

Lemma text_tracks_the_document_witness :
  text (app (step checkedSession (ClickReplacement 0 0))) = line "The cat".
Proof.
  refine (text_tracks_the_document checkedSession (ClickReplacement 0 0)
            (mkQuill (plain (line "The cat")) (Some (3, 0)%Z)) _ _ _ _).
  - by vm_compute.
  - intros q. vm_compute. by intros [= <-].
  - by vm_compute.
  - by vm_compute.
Defined.
